(** * Sliding-window rate limiter of [app/auth.py]

    A shallow embedding of [RateLimiterMiddleware] (its constructor and
    its [dispatch] coroutine) together with the properties of the
    admission decision.

    Python values are modelled as follows.
    - [int] ([max_requests], [len(...)]) is [Z].
    - [float] readings of [time.monotonic()] are an instance of the class
      [Timestamp], which offers exactly the two operations [dispatch]
      applies to them: subtraction and [>].  The instance of the code is
      [Timestamp_float], IEEE binary64 numbers ([PrimFloat]) with their
      rounded subtraction; the properties that depend on elapsed time are
      proved for it.  The instance on the exact rationals [Q] is kept
      for the properties that do not turn on how a difference is rounded.
    - [collections.deque] is a [list], oldest entry first; [d[0]] and
      [d.popleft()] raise [IndexError] on an empty deque.
    - statements run in a state-and-exception monad; an exception leaves
      the mutations made before it in place, as in Python. *)

From Stdlib Require Import String Bool ZArith QArith Qminmax Lia Lqa PrimFloat List Sorted.
From Stdlib Require Import Ascii DecimalString.
From Stdlib Require Import SpecFloat FloatOps FloatAxioms.
Import ListNotations.

Set Implicit Arguments.
Set Warnings "-inexact-float".

(** ** Timestamps *)

Class Timestamp (T : Type) : Type := {
  t_sub : T -> T -> T;      (* [a - b] *)
  t_gtb : T -> T -> bool    (* [a > b] *)
}.

Definition Qgtb (a b : Q) : bool := negb (Qle_bool a b).

#[export] Instance Timestamp_Q : Timestamp Q :=
  {| t_sub := Qminus; t_gtb := Qgtb |}.

#[export] Instance Timestamp_float : Timestamp float :=
  {| t_sub := PrimFloat.sub; t_gtb := fun a b => PrimFloat.ltb b a |}.

(** ** Exceptions and the statement monad *)

Inductive exn : Type :=
| IndexError
| HTTPException (status_code : Z) (detail : string).

Inductive result (S A : Type) : Type :=
| Ok (a : A) (s : S)
| Raise (e : exn) (s : S)
| OutOfFuel.

Arguments Ok {S A} a s.
Arguments Raise {S A} e s.
Arguments OutOfFuel {S A}.

Definition M (S A : Type) : Type := S -> result S A.

Definition ret {S A} (a : A) : M S A := fun s => Ok a s.

Definition bind {S A B} (m : M S A) (k : A -> M S B) : M S B :=
  fun s =>
    match m s with
    | Ok a s' => k a s'
    | Raise e s' => Raise e s'
    | OutOfFuel => OutOfFuel
    end.

Definition raise {S A} (e : exn) : M S A := fun s => Raise e s.

Declare Scope stmt_scope.
Delimit Scope stmt_scope with stmt.
Notation "x <- m ;; k" := (bind m (fun x => k))
  (at level 100, m at next level, right associativity) : stmt_scope.
Notation "m ;; k" := (bind m (fun _ => k))
  (at level 100, right associativity) : stmt_scope.
Open Scope stmt_scope.

(** [while cond: body], with a bound on the number of times [cond] is
    evaluated.  The value returned is a ghost: the number of times [body]
    ran. *)
Fixpoint while_ {S} (fuel : nat) (cond : M S bool) (body : M S unit) : M S nat :=
  match fuel with
  | O => fun _ => OutOfFuel
  | Datatypes.S fuel' =>
      b <- cond ;;
      if b
      then (body ;; n <- while_ fuel' cond body ;; ret (Datatypes.S n))
      else ret O
  end.

(** ** The middleware object *)

Section Middleware.

Context {T : Type} `{Timestamp T}.

(** The attributes set by [__init__]. *)
Record RateLimiterMiddleware : Type := {
  max_requests : Z;
  window_seconds : T;
  _request_times : list T
}.

(** [RateLimiterMiddleware.__init__]: the log starts empty. *)
Definition __init__ (max_requests : Z) (window_seconds : T) : RateLimiterMiddleware :=
  {| max_requests := max_requests;
     window_seconds := window_seconds;
     _request_times := [] |}.

(** The machine state a [dispatch] call runs in: the middleware object and
    whatever the rest of the application ([call_next]) can touch. *)
Record State (W : Type) : Type := {
  self : RateLimiterMiddleware;
  downstream : W
}.

Definition set_request_times {W} (l : list T) (s : State W) : State W :=
  {| self := {| max_requests := max_requests (self s);
                window_seconds := window_seconds (self s);
                _request_times := l |};
     downstream := downstream s |}.

Section Statements.

Variable W : Type.

(** Attribute reads. *)
Definition get_max_requests : M (State W) Z := fun s => Ok (max_requests (self s)) s.
Definition get_window_seconds : M (State W) T := fun s => Ok (window_seconds (self s)) s.

(** [bool(self._request_times)] *)
Definition deque_truth : M (State W) bool :=
  fun s => match _request_times (self s) with
           | [] => Ok false s
           | _ :: _ => Ok true s
           end.

(** [self._request_times[0]] *)
Definition deque_first : M (State W) T :=
  fun s => match _request_times (self s) with
           | [] => Raise IndexError s
           | x :: _ => Ok x s
           end.

(** [self._request_times.popleft()] *)
Definition deque_popleft : M (State W) T :=
  fun s => match _request_times (self s) with
           | [] => Raise IndexError s
           | x :: rest => Ok x (set_request_times rest s)
           end.

(** [len(self._request_times)] *)
Definition deque_len : M (State W) Z :=
  fun s => Ok (Z.of_nat (length (_request_times (self s)))) s.

(** [self._request_times.append(x)] *)
Definition deque_append (x : T) : M (State W) unit :=
  fun s => Ok tt (set_request_times (_request_times (self s) ++ [x]) s).

(** Line 60-61: the purge loop.  [and] short-circuits, so the deque is
    indexed only when it is non-empty. *)
Definition purge_loop (fuel : nat) (current_time : T) : M (State W) nat :=
  while_ fuel
    (nonempty <- deque_truth ;;
     if nonempty
     then oldest <- deque_first ;;
          w <- get_window_seconds ;;
          ret (t_gtb (t_sub current_time oldest) w)
     else ret false)
    (_ <- deque_popleft ;; ret tt).

(** Lines 60-65: everything [dispatch] does between reading the clock and
    handing over to [call_next]. *)
Definition admission (fuel : nat) (current_time : T) : M (State W) unit :=
  purge_loop fuel current_time ;;
  n <- deque_len ;;
  limit <- get_max_requests ;;
  if (n >=? limit)%Z
  then raise (HTTPException 429 "Rate limit exceeded")
  else deque_append current_time.

(** [dispatch]; [current_time] is the value [time.monotonic()] returned on
    line 58, [call_next] the rest of the application. *)
Definition dispatch {Request Response : Type} (fuel : nat) (current_time : T)
    (request : Request) (call_next : Request -> M (State W) Response) : M (State W) Response :=
  admission fuel current_time ;;
  call_next request.

End Statements.

(** ** The admission decision [admit(now)]

    The decision is what lines 60-65 do to the middleware object: they
    either fall through to [call_next] or raise.  The loop is run with one
    unit of fuel more than the log is long.  [purge_loop_fuel] shows that
    this is always enough and [purge_loop_never_raises] that the loop does
    not raise, so the only exception met is the one of line 64 and the last
    branch below is never taken. *)

Inductive Decision : Type := ADMITTED | REJECTED.

Definition admit_at (now : T) (m : RateLimiterMiddleware) : Decision * RateLimiterMiddleware :=
  match admission (S (length (_request_times m))) now {| self := m; downstream := tt |} with
  | Ok _ s => (ADMITTED, self s)
  | Raise _ s => (REJECTED, self s)
  | OutOfFuel => (REJECTED, m)
  end.

(** Successive [admit] calls on the same object; the decisions come back in
    call order. *)
Fixpoint run (ts : list T) (m : RateLimiterMiddleware) : list Decision * RateLimiterMiddleware :=
  match ts with
  | [] => ([], m)
  | t :: ts' =>
      let (d, m') := admit_at t m in
      let (ds, m'') := run ts' m' in
      (d :: ds, m'')
  end.

(** *** Closed forms used in the proofs *)

(** [expired now w e]: the loop condition for a front entry [e]. *)
Definition expired (now w e : T) : bool := t_gtb (t_sub now e) w.

(** What the purge loop leaves of a log. *)
Fixpoint purge (now w : T) (log : list T) : list T :=
  match log with
  | [] => []
  | oldest :: rest => if expired now w oldest then purge now w rest else log
  end.

Definition with_log (m : RateLimiterMiddleware) (log : list T) : RateLimiterMiddleware :=
  {| max_requests := max_requests m;
     window_seconds := window_seconds m;
     _request_times := log |}.

End Middleware.

Arguments RateLimiterMiddleware T : clear implicits.
Arguments State T W : clear implicits.

(** ** The algorithm as section 4.1 words it

    Step 1: "while the log is non-empty and [now - oldest_entry >
    window_seconds], remove the oldest entry". *)
Inductive spec_purge {T} `{Timestamp T} (now w : T) : list T -> list T -> Prop :=
| spec_purge_empty :
    spec_purge now w [] []
| spec_purge_stop oldest rest :
    t_gtb (t_sub now oldest) w = false ->
    spec_purge now w (oldest :: rest) (oldest :: rest)
| spec_purge_remove oldest rest log' :
    t_gtb (t_sub now oldest) w = true ->
    spec_purge now w rest log' ->
    spec_purge now w (oldest :: rest) log'.

(** Steps 2 and 3: "if the remaining log length is [>= max_requests],
    return REJECTED without mutating the log; otherwise append [now] to the
    log and return ADMITTED". *)
Inductive spec_admit {T} `{Timestamp T} (now : T) (m : RateLimiterMiddleware T) :
    Decision -> RateLimiterMiddleware T -> Prop :=
| spec_admit_rejected remaining :
    spec_purge now (window_seconds m) (_request_times m) remaining ->
    (Z.of_nat (length remaining) >= max_requests m)%Z ->
    spec_admit now m REJECTED (with_log m remaining)
| spec_admit_admitted remaining :
    spec_purge now (window_seconds m) (_request_times m) remaining ->
    (Z.of_nat (length remaining) < max_requests m)%Z ->
    spec_admit now m ADMITTED (with_log m (remaining ++ [now])).

(** ** Concurrent requests on the event loop

    [dispatch] is a coroutine whose only suspension point is the [await] on
    line 66.  The event loop resumes one task at a time and runs it up to
    its next suspension point, so a task is in one of four places. *)
Inductive Task (T : Type) : Type :=
| Created (current_time : T)  (* not started; [current_time] is what line 58 will read *)
| Awaiting                    (* suspended in [await call_next(request)] *)
| Raised (e : exn)            (* left [dispatch] by an exception *)
| Returned.                   (* [call_next] completed *)

Arguments Awaiting {T}.
Arguments Raised {T} e.
Arguments Returned {T}.

Record Loop (T W : Type) : Type := {
  shared : State T W;
  tasks : list (Task T)
}.

Fixpoint list_set {A} (i : nat) (x : A) (l : list A) : list A :=
  match l, i with
  | [], _ => []
  | _ :: l', O => x :: l'
  | y :: l', Datatypes.S i' => y :: list_set i' x l'
  end.

(** The event loop resumes task [i]: a created task runs lines 58-65, a
    suspended one gets the response of the downstream [handler].  Anything
    else is not runnable and the pick is ignored. *)
Definition resume {T} `{Timestamp T} {W} (handler : W -> W) (i : nat) (l : Loop T W) : Loop T W :=
  match nth_error (tasks l) i with
  | Some (Created now) =>
      match admission (S (length (_request_times (self (shared l))))) now (shared l) with
      | Ok _ s => {| shared := s; tasks := list_set i Awaiting (tasks l) |}
      | Raise e s => {| shared := s; tasks := list_set i (Raised e) (tasks l) |}
      | OutOfFuel => l
      end
  | Some Awaiting =>
      {| shared := {| self := self (shared l);
                      downstream := handler (downstream (shared l)) |};
         tasks := list_set i Returned (tasks l) |}
  | _ => l
  end.

(** A schedule is the order in which the event loop picks tasks. *)
Definition event_loop {T} `{Timestamp T} {W} (handler : W -> W)
    (schedule : list nat) (l : Loop T W) : Loop T W :=
  fold_left (fun l i => resume handler i l) schedule l.

Definition started {T} (t : Task T) : bool :=
  match t with Created _ => false | _ => true end.

Definition is_admitted {T} (t : Task T) : bool :=
  match t with Awaiting | Returned => true | _ => false end.

Definition is_rejected {T} (t : Task T) : bool :=
  match t with Raised (HTTPException 429 _) => true | _ => false end.

Definition count {A} (p : A -> bool) (l : list A) : nat := length (filter p l).

(** [N] requests arrive at a new middleware object; all of them will read
    the same clock value [now]. *)
Definition arrivals {T W} (N : nat) (now : T) (K : Z) (w : T) (d : W) : Loop T W :=
  {| shared := {| self := __init__ K w; downstream := d |};
     tasks := repeat (Created now) N |}.

(** What every schedule preserves when all requests read the clock value
    [now]: the log holds one entry per admitted task and nothing else, every
    task that has run was either admitted or rejected with status 429, and
    the number admitted is the number started, capped at [K]. *)
Definition sched_inv {T W} (K : Z) (w now : T) (l : Loop T W) : Prop :=
  max_requests (self (shared l)) = K
  /\ window_seconds (self (shared l)) = w
  /\ _request_times (self (shared l)) = repeat now (count is_admitted (tasks l))
  /\ Forall (fun t => t = Created now \/ is_admitted t = true \/ is_rejected t = true)
            (tasks l)
  /\ Z.of_nat (count is_admitted (tasks l))
       = Z.min (Z.of_nat (count started (tasks l))) K
  /\ count started (tasks l)
       = (count is_admitted (tasks l) + count is_rejected (tasks l))%nat.

(** ** Timestamps as exact rationals *)

(** [t] lies in [(tk - w, tk]]. *)
Definition in_window (tk w t : Q) : bool :=
  Qgtb t (tk - w) && Qle_bool t tk.

(** The timestamps of the calls that were admitted. *)
Fixpoint admitted_times {T} (ts : list T) (ds : list Decision) : list T :=
  match ts, ds with
  | t :: ts', ADMITTED :: ds' => t :: admitted_times ts' ds'
  | _ :: ts', REJECTED :: ds' => admitted_times ts' ds'
  | _, _ => []
  end.

(** Oldest first. *)
Definition nondecreasing (l : list Q) : Prop := Sorted Qle l.

(** ** Timestamps as binary64 numbers

    [time.monotonic()] returns a [float], and a CPython [float] is an IEEE
    754 binary64 number.  So [current_time - self._request_times[0]] on
    line 60 is the exact difference rounded to the nearest binary64 number,
    ties to even, and [>] compares that rounded difference with
    [window_seconds].  These are the operations of the instance
    [Timestamp_float].  The standard library specifies them ([FloatAxioms])
    by the functions of [SpecFloat] on the decoded number [Prim2SF x]:
    a sign, a mantissa [m] and an exponent [e] standing for [m * 2^e].

    The definitions below give every number its exact value, so that what
    the rounding does to a difference can be stated and proved. *)

(** [rne m n]: the integer nearest to [m / 2^n]; of two equally near, the
    even one. *)
Definition rne (m n : Z) : Z :=
  let q := (m / 2 ^ n)%Z in
  let r := (m mod 2 ^ n)%Z in
  if ((2 ^ n <? 2 * r) || ((2 * r =? 2 ^ n) && Z.odd q))%Z then (q + 1)%Z else q.

(** The exact value of a decoded number as a multiple of [2^emin], the
    spacing of the smallest numbers of the format: every finite number is a
    whole multiple of it.  An infinity is placed at [2^emax], beyond every
    finite number; [nan] has no value and is given [0]. *)
Definition sf_scaled (prec emax : Z) (f : spec_float) : Z :=
  match f with
  | S754_zero _ => 0%Z
  | S754_finite s m e => cond_Zopp s (Zpos m * 2 ^ (e - SpecFloat.emin prec emax))%Z
  | S754_infinity s => cond_Zopp s (2 ^ (emax - SpecFloat.emin prec emax))%Z
  | S754_nan => 0%Z
  end.

(** Rounding a magnitude of [V] units to the format: [V] keeps its [prec]
    leading bits, the bits below them being rounded off to nearest-even;
    what reaches [2^emax] becomes the infinity. *)
Definition round_magnitude (prec emax : Z) (V : Z) : Z :=
  let n := Z.max (Z.log2 V + 1 - prec) 0 in
  Z.min (rne V n * 2 ^ n) (2 ^ (emax - SpecFloat.emin prec emax)).

Definition sf_round (prec emax : Z) (V : Z) : Z :=
  (Z.sgn V * round_magnitude prec emax (Z.abs V))%Z.

Definition sf_finite (f : spec_float) : bool :=
  match f with
  | S754_zero _ | S754_finite _ _ _ => true
  | S754_infinity _ | S754_nan => false
  end.

(** The same for binary64 ([prec = 53], [emax = 1024], so the unit is
    [2^(-1074)]). *)
Definition scaled (f : float) : Z := sf_scaled prec emax (Prim2SF f).

Definition round_scaled (V : Z) : Z := sf_round prec emax V.

(** The rational number a [float] stands for (Python's
    [Fraction(x)]). *)
Definition exact (f : float) : Q := scaled f # 2 ^ 1074.

(** What the clock returns: neither an infinity nor [nan]
    ([math.isfinite]). *)
Definition finite_reading (t : float) : Prop := is_finite t = true.

(** Oldest first. *)
Definition chronological (l : list float) : Prop :=
  Sorted (fun a b => exact a <= exact b) l.

(** The negation of the loop condition of line 60 for an entry [t] at
    [tk]: [tk - t <= window_seconds], in binary64 arithmetic. *)
Definition within (tk w t : float) : bool := (tk - t <=? w)%float.

(** What holds of the object [m] and of the timestamps [admitted] so far
    once a call at time [t] has returned: the log is within the limit, and
    it is what remains of [admitted] after dropping entries from the front
    that are all more than [w] older than [t]. *)
Definition window_inv (K : Z) (w t : float) (m : RateLimiterMiddleware float)
    (admitted : list float) : Prop :=
  max_requests m = K
  /\ window_seconds m = w
  /\ (Z.of_nat (length (_request_times m)) <= K)%Z
  /\ Forall finite_reading admitted
  /\ exists dropped,
       admitted = dropped ++ _request_times m
       /\ Forall (fun e => exact w < exact t - exact e) dropped.

(** ** The history of admissions *)

(** What a call at time [t] leaves behind, when the clock never goes back
    and the window is not negative: the timestamps [admitted] so far are in
    order and not later than [t]; the log is what is left of them after
    dropping, from the front, entries that have expired at [t]; and no entry
    of the log has expired at [t]. *)
Definition history_inv (K : Z) (w t : float) (m : RateLimiterMiddleware float)
    (admitted : list float) : Prop :=
  max_requests m = K
  /\ window_seconds m = w
  /\ Forall finite_reading admitted
  /\ StronglySorted (fun a b => exact a <= exact b) admitted
  /\ Forall (fun e => exact e <= exact t) admitted
  /\ exists dropped,
       admitted = dropped ++ _request_times m
       /\ Forall (fun e => expired t w e = true) dropped
       /\ Forall (fun e => expired t w e = false) (_request_times m).

(** Any [k + 1] consecutive entries of [admitted] span more than [w]. *)
Definition spaced (k : nat) (w : float) (admitted : list float) : Prop :=
  forall i x y,
    nth_error admitted i = Some x ->
    nth_error admitted (i + k) = Some y ->
    exact w < exact y - exact x.

(** ** The limiter of the application

    [create_app] installs the middleware with
    [app.add_middleware(auth.RateLimiterMiddleware, max_requests=10,
    window_seconds=1.0)] ([main.py], line 37); the framework constructs the
    object with these keyword arguments. *)
Definition create_app_rate_limiter : RateLimiterMiddleware float :=
  __init__ 10 1%float.

(** * The rest of the application

    ** [verify_api_key]

    [os.getenv] reads the process environment, a map from names to values;
    the header value is absent ([None]) or a string. *)
Definition verify_api_key (environ : string -> option string)
    (x_api_key : option string) : exn + unit :=
  let expected_key := environ "API_KEY"%string in
  match expected_key with
  | None => inl (HTTPException 500 "Server misconfigured: API_KEY not set")
  | Some expected_key =>
      if match x_api_key with
         | Some key => negb (String.eqb key expected_key)
         | None => true
         end
      then inl (HTTPException 401 "Invalid API key")
      else inr tt
  end.

(** ** Exceptions, values and effects outside the middleware *)

(** The exceptions met in [supabase.py] and [main.py].  [Foreign] stands for
    one raised inside a library (httpx, the scoring provider);
    [is_exception] tells whether it derives from [Exception], which decides
    whether [except Exception] catches it. *)
Inductive error : Type :=
| Exn (e : exn)
| RuntimeError (message : string)
| KeyError (key : string)
| Foreign (description : string) (is_exception : bool).

Definition is_Exception (e : error) : bool :=
  match e with
  | Foreign _ b => b
  | _ => true
  end.

(** The values found in a row of the [companies] table. *)
Inductive value : Type :=
| VNone
| VInt (z : Z)
| VStr (s : string).

(** [str(n)] for an [int]. *)
Definition str_int (z : Z) : string := NilZero.string_of_int (Z.to_int z).

(** [str(v)], as an f-string renders [v]. *)
Definition str_value (v : value) : string :=
  match v with
  | VNone => "None"
  | VInt z => str_int z
  | VStr s => s
  end.

(** A [dict] with string keys, in insertion order. *)
Definition dict (V : Type) : Type := list (string * V).

Fixpoint dict_get {V} (k : string) (d : dict V) : option V :=
  match d with
  | [] => None
  | (k', v) :: d' => if String.eqb k k' then Some v else dict_get k d'
  end.

(** [d[k] = v] *)
Fixpoint dict_set {V} (k : string) (v : V) (d : dict V) : dict V :=
  match d with
  | [] => [(k, v)]
  | (k', v') :: d' =>
      if String.eqb k k' then (k', v) :: d' else (k', v') :: dict_set k v d'
  end.

(** [a | b] *)
Definition dict_union {V} (a b : dict V) : dict V :=
  fold_left (fun d kv => dict_set (fst kv) (snd kv) d) b a.

Definition row : Type := dict value.

(** [not s] for an optional string: [None] and [""] are falsy. *)
Definition falsy (s : option string) : bool :=
  match s with
  | None => true
  | Some s => String.eqb s ""
  end.

Inductive outcome (S A : Type) : Type :=
| Done (a : A) (s : S)
| Failed (e : error) (s : S)
| Diverged.

Arguments Done {S A} a s.
Arguments Failed {S A} e s.
Arguments Diverged {S A}.

Definition IO (S A : Type) : Type := S -> outcome S A.

Definition io_ret {S A} (a : A) : IO S A := fun s => Done a s.

Definition io_bind {S A B} (m : IO S A) (k : A -> IO S B) : IO S B :=
  fun s =>
    match m s with
    | Done a s' => k a s'
    | Failed e s' => Failed e s'
    | Diverged => Diverged
    end.

Definition io_raise {S A} (e : error) : IO S A := fun s => Failed e s.

(** [try: body except Exception as exc: handler] *)
Definition try_except {S A} (body : IO S A) (handler : error -> IO S A) : IO S A :=
  fun s =>
    match body s with
    | Failed e s' => if is_Exception e then handler e s' else Failed e s'
    | r => r
    end.

Declare Scope io_scope.
Delimit Scope io_scope with io.
Notation "x <- m ;; k" := (io_bind m (fun x => k))
  (at level 100, m at next level, right associativity) : io_scope.
Notation "m ;; k" := (io_bind m (fun _ => k))
  (at level 100, right associativity) : io_scope.

(** ** The store client of [supabase.py] *)

Record Request : Type := {
  method : string;
  url : string;
  params : dict string;
  headers : dict string;
  json_body : option (dict value);
  timeout : Q
}.

(** What the functions can reach: the remote store, and the requests handed
    to the HTTP client so far. *)
Record Net (R : Type) : Type := {
  remote : R;
  sent : list Request
}.

Section Supabase.

(** The process environment, the percent-encoding of [urllib.parse.quote],
    and the HTTP client with the store behind it: a request is answered by
    a response or by an exception; a response may fail
    [raise_for_status], and its body decodes to a list of rows or fails to
    decode. *)
Variable environ : string -> option string.
Variable quote : string -> string.
Variable R : Type.
Variable Response : Type.
Variable transport : Request -> R -> (error + Response) * R.
Variable status_error : Response -> option error.
Variable json_rows : Response -> error + list row.

Local Open Scope io_scope.
Local Open Scope string_scope.

(** [client.get(...)] and [client.patch(...)] *)
Definition client_request (req : Request) : IO (Net R) Response :=
  fun n =>
    match transport req (remote n) with
    | (inr resp, r') => Done resp {| remote := r'; sent := sent n ++ [req] |}
    | (inl e, r') => Failed e {| remote := r'; sent := sent n ++ [req] |}
    end.

(** [resp.raise_for_status()] *)
Definition raise_for_status (resp : Response) : IO (Net R) unit :=
  match status_error resp with
  | Some e => io_raise e
  | None => io_ret tt
  end.

(** [resp.json()] *)
Definition json (resp : Response) : IO (Net R) (list row) :=
  match json_rows resp with
  | inl e => io_raise e
  | inr rows => io_ret rows
  end.

Definition _build_headers : IO (Net R) (dict string) :=
  let supabase_key := environ "SUPABASE_KEY" in
  match supabase_key with
  | Some supabase_key =>
      if falsy (Some supabase_key)
      then io_raise (RuntimeError "SUPABASE_KEY environment variable not set")
      else io_ret [("apikey", supabase_key);
                   ("Authorization", "Bearer " ++ supabase_key);
                   ("Content-Type", "application/json")]
  | None => io_raise (RuntimeError "SUPABASE_KEY environment variable not set")
  end.

(** The first three lines of each function: [SUPABASE_URL] must be set. *)
Definition base_url_or_raise : IO (Net R) string :=
  let base_url := environ "SUPABASE_URL" in
  match base_url with
  | Some base_url =>
      if falsy (Some base_url)
      then io_raise (RuntimeError "SUPABASE_URL environment variable not set")
      else io_ret base_url
  | None => io_raise (RuntimeError "SUPABASE_URL environment variable not set")
  end.

Definition list_companies (q : option string) (order : string)
    (limit offset : Z) : IO (Net R) (list row) :=
  base_url <- base_url_or_raise ;;
  let table_endpoint := base_url ++ "/rest/v1/companies" in
  let params := [("select", "id,name,ticker,ethics_score,source_reason,last_updated")] in
  let params :=
    match q with
    | Some q' =>
        if falsy q then params
        else
          let pattern := "%" ++ q' ++ "%" in
          let encoded := quote pattern in
          dict_set "or" ("name.ilike." ++ encoded ++ ",ticker.ilike." ++ encoded) params
    | None => params
    end in
  let (order_column, order_dir) :=
    match order with
    | String "-"%char rest => (rest, "desc")
    | _ => (order, "asc")
    end in
  let params := dict_set "order" (order_column ++ "." ++ order_dir) params in
  let range_header := [("Range", str_int offset ++ "-" ++ str_int (offset + limit - 1))] in
  built <- _build_headers ;;
  let headers := dict_union built range_header in
  response <- client_request
    {| method := "GET"; url := table_endpoint; params := params;
       headers := headers; json_body := None; timeout := 10 |} ;;
  raise_for_status response ;;
  json response.

Definition fetch_company (company_id : string) : IO (Net R) (option row) :=
  base_url <- base_url_or_raise ;;
  let endpoint := base_url ++ "/rest/v1/companies" in
  let params := [("select", "id,name,ticker,ethics_score,source_reason,last_updated");
                 ("id", "eq." ++ company_id)] in
  headers <- _build_headers ;;
  resp <- client_request
    {| method := "GET"; url := endpoint; params := params;
       headers := headers; json_body := None; timeout := 10 |} ;;
  raise_for_status resp ;;
  data <- json resp ;;
  match data with
  | first :: _ => io_ret (Some first)
  | [] => io_ret None
  end.

(** [resp.json()[0]] *)
Definition first_row (data : list row) : IO (Net R) row :=
  match data with
  | first :: _ => io_ret first
  | [] => io_raise (Exn IndexError)
  end.

Definition update_company (company_id : string) (score : Z) (reason : string)
    : IO (Net R) row :=
  base_url <- base_url_or_raise ;;
  let endpoint := base_url ++ "/rest/v1/companies" in
  let params := [("id", "eq." ++ company_id)] in
  let payload := [("ethics_score", VInt score); ("source_reason", VStr reason)] in
  headers <- _build_headers ;;
  resp <- client_request
    {| method := "PATCH"; url := endpoint; params := params;
       headers := headers; json_body := Some payload; timeout := 10 |} ;;
  raise_for_status resp ;;
  data <- json resp ;;
  first_row data.

Definition update_company_fields (company_id : string) (fields : dict value)
    : IO (Net R) row :=
  base_url <- base_url_or_raise ;;
  let endpoint := base_url ++ "/rest/v1/companies" in
  let params := [("id", "eq." ++ company_id)] in
  headers <- _build_headers ;;
  resp <- client_request
    {| method := "PATCH"; url := endpoint; params := params;
       headers := headers; json_body := Some fields; timeout := 10 |} ;;
  raise_for_status resp ;;
  data <- json resp ;;
  first_row data.

End Supabase.

(** ** The rescoring job of [main.py] ([score_all])

    The job calls [supabase.list_companies], [scoring.score_company] and
    [supabase.update_company]; here they are any three operations on a
    world [W], with the signatures of the source.  [str_error] is [str(exc)]
    as the f-string of line 86 renders an exception.  Each call made is
    noted, with its arguments and its result ([None] if it raised), in a
    record that the job itself never reads. *)

Inductive event : Type :=
| ListCompanies (q : option string) (order : string) (limit offset : Z)
    (result : option (list row))
| ScoreCompany (company_id : value) (result : option (Z * string))
| UpdateCompany (company_id : value) (score : Z) (reason : string)
    (result : option row).

Record Host (W : Type) : Type := {
  world : W;
  stdout : list string;
  calls : list event
}.

Definition is_score_call (ev : event) : bool :=
  match ev with ScoreCompany _ _ => true | _ => false end.

Definition is_update_done (ev : event) : bool :=
  match ev with UpdateCompany _ _ _ (Some _) => true | _ => false end.

Definition rows_returned (ev : event) : nat :=
  match ev with
  | ListCompanies _ _ _ _ (Some rows) => length rows
  | _ => 0%nat
  end.

(** The arguments of a [list_companies] call; anything else gives [None]. *)
Definition list_call_args (ev : event) : option (option string * string * Z * Z) :=
  match ev with
  | ListCompanies q order limit offset _ => Some (q, order, limit, offset)
  | _ => None
  end.

Section ScoreAll.

Variable W : Type.
Variable supabase_list_companies : option string -> string -> Z -> Z -> IO W (list row).
Variable scoring_score_company : value -> IO W (Z * string).
Variable supabase_update_company : value -> Z -> string -> IO W row.
Variable str_error : error -> string.

Local Open Scope io_scope.
Local Open Scope string_scope.

(** Run an operation on the world and note the call. *)
Definition noted {A} (ev : option A -> event) (m : IO W A) : IO (Host W) A :=
  fun h =>
    match m (world h) with
    | Done a w' =>
        Done a {| world := w'; stdout := stdout h;
                  calls := calls h ++ [ev (Some a)] |}
    | Failed e w' =>
        Failed e {| world := w'; stdout := stdout h;
                    calls := calls h ++ [ev None] |}
    | Diverged => Diverged
    end.

(** [print(line)] *)
Definition print (line : string) : IO (Host W) unit :=
  fun h => Done tt {| world := world h; stdout := stdout h ++ [line];
                      calls := calls h |}.

(** [company[key]] *)
Definition subscript (company : row) (key : string) : IO (Host W) value :=
  match dict_get key company with
  | Some v => io_ret v
  | None => io_raise (KeyError key)
  end.

(** Lines 79-86: the body of the [for] loop. *)
Definition rescore (company : row) (total_updated : Z) : IO (Host W) Z :=
  company_id <- subscript company "id" ;;
  try_except
    (scored <- noted (ScoreCompany company_id)
                 (scoring_score_company company_id) ;;
     let (score_val, reason) := scored in
     noted (UpdateCompany company_id score_val reason)
       (supabase_update_company company_id score_val reason) ;;
     io_ret (total_updated + 1)%Z)
    (fun exc =>
       print ("Error rescoring " ++ str_value company_id ++ ": " ++ str_error exc) ;;
       io_ret total_updated).

(** Lines 78-86: [for company in companies]. *)
Fixpoint for_companies (companies : list row) (total_updated : Z) : IO (Host W) Z :=
  match companies with
  | [] => io_ret total_updated
  | company :: rest =>
      total_updated <- rescore company total_updated ;;
      for_companies rest total_updated
  end.

Definition batch_size : Z := 200.

(** Lines 74-87: [while True], bounded by [fuel] iterations. *)
Fixpoint score_all_loop (fuel : nat) (offset_val total_updated : Z) : IO (Host W) Z :=
  match fuel with
  | O => fun _ => Diverged
  | S fuel' =>
      companies <- noted (ListCompanies None "-ethics_score" batch_size offset_val)
                     (supabase_list_companies None "-ethics_score" batch_size offset_val) ;;
      match companies with
      | [] => io_ret total_updated
      | _ :: _ =>
          total_updated <- for_companies companies total_updated ;;
          score_all_loop fuel' (offset_val + batch_size)%Z total_updated
      end
  end.

Definition score_all (fuel : nat) : IO (Host W) (dict Z) :=
  total_updated <- score_all_loop fuel 0%Z 0%Z ;;
  io_ret [("rescored", total_updated)].

End ScoreAll.

(** A request to the [companies] table of the store at [base], carrying
    the service key [key] the way [_build_headers] lays it out. *)
Definition to_companies_table (base key : string) (req : Request) : Prop :=
  url req = (base ++ "/rest/v1/companies")%string
  /\ dict_get "apikey" (headers req) = Some key
  /\ dict_get "Authorization" (headers req) = Some ("Bearer " ++ key)%string
  /\ dict_get "Content-Type" (headers req) = Some "application/json"%string.

(** The state a call ends in, if it ends. *)
Definition final_state {S A} (o : outcome S A) : option S :=
  match o with
  | Done _ s => Some s
  | Failed _ s => Some s
  | Diverged => None
  end.

(** A call that started in [n] ended, and handed at most one request to the
    HTTP client, which was for the [companies] table and carried the key. *)
Definition one_request_at_most {R A} (base key : string) (n : Net R)
    (o : outcome (Net R) A) : Prop :=
  match final_state o with
  | Some n' =>
      sent n' = sent n
      \/ exists req, sent n' = sent n ++ [req] /\ to_companies_table base key req
  | None => False
  end.

(** What a record of calls says about the pages asked for and the rows
    they brought. *)
Definition list_calls (evs : list event) : list (option string * string * Z * Z) :=
  flat_map (fun ev => match list_call_args ev with
                      | Some args => [args]
                      | None => []
                      end) evs.

Definition list_results (evs : list event) : list (option (list row)) :=
  flat_map (fun ev => match ev with
                      | ListCompanies _ _ _ _ result => [result]
                      | _ => []
                      end) evs.

Definition rows_listed (evs : list event) : nat :=
  list_sum (map rows_returned evs).

(** What going through [k] companies adds to the record: [k] scoring calls,
    no listing, and for each company either one more update done or one
    more line printed. *)
Definition companies_done {W} (k : nat) (total : Z) (h : Host W)
    (t : Z) (h' : Host W) : Prop :=
  exists new lines,
    calls h' = calls h ++ new
    /\ stdout h' = stdout h ++ lines
    /\ count is_score_call new = k
    /\ rows_listed new = 0%nat
    /\ list_calls new = []
    /\ list_results new = []
    /\ t = (total + Z.of_nat (count is_update_done new))%Z
    /\ (length lines + count is_update_done new = k)%nat.

(** What a run of the loop that started at [offset] and ended normally
    adds: the pages listed, all but the last non-empty, asked for at
    [offset], [offset + 200], ...; one scoring call per row listed; and for
    each of those either an update done or a line printed. *)
Definition job_done {W} (offset total : Z) (h : Host W) (t : Z) (h' : Host W) : Prop :=
  exists new lines pages,
    calls h' = calls h ++ new
    /\ stdout h' = stdout h ++ lines
    /\ list_calls new
       = map (fun k => (None, "-ethics_score"%string, 200%Z,
                        (offset + 200 * Z.of_nat k)%Z))
             (seq 0 (S (length pages)))
    /\ list_results new = map Some pages ++ [Some []]
    /\ Forall (fun page => page <> []) pages
    /\ count is_score_call new = rows_listed new
    /\ t = (total + Z.of_nat (count is_update_done new))%Z
    /\ (length lines + count is_update_done new = count is_score_call new)%nat.

(** How a run of the job can fail with an exception that [except
    Exception] would catch: on a row without ["id"], or in a listing, which
    is then the last call made. *)
Definition job_failure {W} (e : error) (h' : Host W) : Prop :=
  e = KeyError "id"
  \/ is_Exception e = false
  \/ exists earlier q order limit offset,
       calls h' = earlier ++ [ListCompanies q order limit offset None].

(** ** Scoring a company ([scoring.py]) *)

(** The arguments of [openai.ChatCompletion.create]. *)
Record ChatRequest : Type := {
  model : string;
  messages : list (dict string);
  max_tokens : Z;
  temperature : Q
}.

(** What [score_company] can reach: the store, through [supabase.py]; the
    scoring provider; and the module attribute [openai.api_key].  [chats]
    notes the requests handed to the provider. *)
Record Services (R P : Type) : Type := {
  store : Net R;
  provider : P;
  openai_api_key : option string;
  chats : list ChatRequest
}.

(** [bool(v)] *)
Definition truthy (v : value) : bool :=
  match v with
  | VNone => false
  | VInt z => negb (z =? 0)%Z
  | VStr s => negb (String.eqb s "")
  end.

(** [d.get(k)] *)
Definition dict_get_or_none (k : string) (d : row) : value :=
  match dict_get k d with
  | Some v => v
  | None => VNone
  end.

Section Scoring.

(** As for the store client; in addition the scoring provider, which
    answers a chat request by a response or an exception; lines 82-85,
    which take score and reason out of a response or raise; and [str] of
    an exception and of a response. *)
Variable environ : string -> option string.
Variable R : Type.
Variable Response : Type.
Variable transport : Request -> R -> (error + Response) * R.
Variable status_error : Response -> option error.
Variable json_rows : Response -> error + list row.
Variable P : Type.
Variable ChatResponse : Type.
Variable chat_completion : option string -> ChatRequest -> P -> (error + ChatResponse) * P.
Variable parse_reply : ChatResponse -> error + (Z * string).
Variable str_error : error -> string.
Variable str_response : ChatResponse -> string.

Local Open Scope io_scope.
Local Open Scope string_scope.

(** A call into [supabase.py]. *)
Definition on_store {A} (m : IO (Net R) A) : IO (Services R P) A :=
  fun s =>
    let put n := {| store := n; provider := provider s;
                    openai_api_key := openai_api_key s; chats := chats s |} in
    match m (store s) with
    | Done a n' => Done a (put n')
    | Failed e n' => Failed e (put n')
    | Diverged => Diverged
    end.

(** [openai.api_key = api_key] *)
Definition set_openai_api_key (api_key : option string) : IO (Services R P) unit :=
  fun s => Done tt {| store := store s; provider := provider s;
                      openai_api_key := api_key; chats := chats s |}.

(** [openai.ChatCompletion.create(...)] *)
Definition create_chat_completion (req : ChatRequest) : IO (Services R P) ChatResponse :=
  fun s =>
    let put p := {| store := store s; provider := p;
                    openai_api_key := openai_api_key s;
                    chats := chats s ++ [req] |} in
    match chat_completion (openai_api_key s) req (provider s) with
    | (inr response, p') => Done response (put p')
    | (inl e, p') => Failed e (put p')
    end.

(** Lines 82-85. *)
Definition read_reply (response : ChatResponse) : IO (Services R P) (Z * string) :=
  match parse_reply response with
  | inr reply => io_ret reply
  | inl e => io_raise e
  end.

Definition system_prompt : string :=
  "You are EthixAI, an AI agent designed to assess the ethical practices of companies."
  ++ " You score companies on a scale from 0 to 100, where higher scores indicate"
  ++ " better ethical performance. Your evaluation should consider factors such as"
  ++ " environmental sustainability, labor practices, corporate governance, data privacy,"
  ++ " and social impact.".

Definition user_prompt (name ticker last_score : value) : string :=
  "Company name: " ++ str_value name ++ "."
  ++ (if truthy ticker then " Ticker: " ++ str_value ticker ++ "." else "")
  ++ (match last_score with
      | VNone => ""
      | _ => " Previous ethics score: " ++ str_value last_score ++ "."
      end)
  ++ " Provide a JSON object with two keys: 'score' (an integer between 0 and 100)"
  ++ " and 'reason' (a brief explanation of why you assigned this score)."
  ++ " The explanation should be concise (no more than 100 words) and written in plain English.".

Definition score_company (company_id : string) : IO (Services R P) (Z * string) :=
  let api_key := environ "OPENAI_API_KEY" in
  if falsy api_key
  then io_raise (RuntimeError "OPENAI_API_KEY environment variable not set")
  else
    set_openai_api_key api_key ;;
    company <- on_store (fetch_company environ transport status_error json_rows
                           company_id) ;;
    match company with
    | None =>
        io_raise (RuntimeError ("Company with ID " ++ company_id ++ " not found"))
    | Some company =>
        let name := dict_get_or_none "name" company in
        let ticker := dict_get_or_none "ticker" company in
        let last_score := dict_get_or_none "ethics_score" company in
        response <-
          try_except
            (create_chat_completion
               {| model := "gpt-3.5-turbo";
                  messages := [[("role", "system"); ("content", system_prompt)];
                               [("role", "user");
                                ("content", user_prompt name ticker last_score)]];
                  max_tokens := 200;
                  temperature := 0.2 |})
            (fun exc =>
               io_raise (RuntimeError ("OpenAI API call failed: " ++ str_error exc))) ;;
        try_except
          (read_reply response)
          (fun exc =>
             io_raise (RuntimeError ("Failed to parse OpenAI response: "
                                     ++ str_error exc ++ ". Response: "
                                     ++ str_response response)))
    end.

End Scoring.

(** * Properties *)

(** ** The code and its closed forms (any timestamp type) *)

Section Bridge.

Context {T : Type} `{Timestamp T}.

Lemma purge_length now w (log : list T) :
  (length (purge now w log) <= length log)%nat.
Proof.
  induction log as [|e rest IH]; simpl; [lia|].
  destruct (expired now w e); simpl; lia.
Qed.

Lemma purge_is_skipn now w (log : list T) :
  purge now w log = skipn (length log - length (purge now w log)) log.
Proof.
  induction log as [|e rest IH]; [reflexivity|].
  cbn [purge]. destruct (expired now w e) eqn:E.
  - pose proof (purge_length now w rest).
    replace (length (e :: rest) - length (purge now w rest))%nat
      with (S (length rest - length (purge now w rest))) by (cbn [length]; lia).
    exact IH.
  - rewrite Nat.sub_diag. reflexivity.
Qed.

(** With more fuel than entries the loop runs to completion; it performs
    [length log - length (purge log)] removals. *)
Lemma purge_loop_fuel W fuel now (s : State T W) :
  (length (_request_times (self s)) < fuel)%nat ->
  purge_loop fuel now s =
    Ok (length (_request_times (self s))
        - length (purge now (window_seconds (self s)) (_request_times (self s))))%nat
       (set_request_times
          (purge now (window_seconds (self s)) (_request_times (self s))) s).
Proof.
  revert s. induction fuel as [|fuel IH]; intros s Hlen; [lia|].
  destruct s as [[k w log] d]. cbn [self _request_times window_seconds] in *.
  destruct log as [|e rest].
  - reflexivity.
  - unfold purge_loop in *. cbn [while_]. unfold bind at 1.
    unfold bind at 1. cbn [deque_truth self _request_times].
    unfold bind at 1. cbn [deque_first self _request_times].
    unfold bind at 1. cbn [get_window_seconds self window_seconds ret].
    cbn [purge]. unfold expired.
    destruct (t_gtb (t_sub now e) w) eqn:E.
    + unfold bind at 1. unfold bind at 1.
      cbn [deque_popleft self _request_times ret].
      unfold bind at 1.
      rewrite IH by (cbn [length set_request_times self _request_times] in *; lia).
      cbn [set_request_times self _request_times window_seconds max_requests downstream ret].
      pose proof (purge_length now w rest).
      replace (length (e :: rest) - length (purge now w rest))%nat
        with (S (length rest - length (purge now w rest))) by (cbn [length]; lia).
      reflexivity.
    + cbn [ret]. rewrite Nat.sub_diag. reflexivity.
Qed.

Lemma admission_eq W fuel now (s : State T W) :
  (length (_request_times (self s)) < fuel)%nat ->
  admission fuel now s =
    let log := purge now (window_seconds (self s)) (_request_times (self s)) in
    if (Z.of_nat (length log) >=? max_requests (self s))%Z
    then Raise (HTTPException 429 "Rate limit exceeded") (set_request_times log s)
    else Ok tt (set_request_times (log ++ [now]) s).
Proof.
  intros Hlen. unfold admission, bind.
  rewrite purge_loop_fuel by assumption.
  cbn [deque_len get_max_requests set_request_times self _request_times
       max_requests].
  destruct (_ >=? _)%Z; reflexivity.
Qed.

Lemma admit_eq now (m : RateLimiterMiddleware T) :
  admit_at now m =
    let log := purge now (window_seconds m) (_request_times m) in
    if (Z.of_nat (length log) >=? max_requests m)%Z
    then (REJECTED, with_log m log)
    else (ADMITTED, with_log m (log ++ [now])).
Proof.
  unfold admit_at. rewrite admission_eq by (simpl; lia).
  cbn [self _request_times window_seconds max_requests].
  cbv zeta. destruct (_ >=? _)%Z; reflexivity.
Qed.

End Bridge.

(** ** Totality, refinement and the hand-over to [call_next] *)

Lemma spec_purge_iff {T : Type} `{Timestamp T} now w (log log' : list T) :
  spec_purge now w log log' <-> log' = purge now w log.
Proof.
  split.
  - induction 1 as [|e rest E|e rest log' E _ IH]; cbn [purge]; unfold expired.
    + reflexivity.
    + rewrite E. reflexivity.
    + rewrite E. exact IH.
  - intros ->. induction log as [|e rest IH]; cbn [purge].
    + constructor.
    + destruct (expired now w e) eqn:E.
      * apply spec_purge_remove; assumption.
      * apply spec_purge_stop; assumption.
Qed.

(** The loop never raises, whatever the fuel: the front of the deque is read
    and popped only after [deque_truth] returned [True]. *)
Lemma purge_loop_never_raises {T : Type} `{Timestamp T} W fuel now (s : State T W) e s' :
  purge_loop fuel now s <> Raise e s'.
Proof.
  revert s. induction fuel as [|fuel IH]; intros s; [discriminate|].
  destruct s as [[k w log] d].
  destruct log as [|x rest]; [discriminate|].
  unfold purge_loop in *. cbn [while_]. unfold bind at 1.
  unfold bind at 1. cbn [deque_truth self _request_times].
  unfold bind at 1. cbn [deque_first self _request_times].
  unfold bind at 1. cbn [get_window_seconds self window_seconds ret].
  destruct (t_gtb (t_sub now x) w); [|discriminate].
  unfold bind at 1. unfold bind at 1.
  cbn [deque_popleft self _request_times ret].
  unfold bind at 1.
  specialize (IH (set_request_times rest
    {| self := {| max_requests := k; window_seconds := w;
                  _request_times := x :: rest |}; downstream := d |})).
  destruct (while_ fuel _ _ _) as [n s1|e1 s1|]; cbn [ret].
  - discriminate.
  - intros Heq. apply IH. exact Heq.
  - discriminate.
Qed.

(** C9.  The admission decision is total.  Whatever the log and the
    timestamp (also one earlier than the entries), the purge loop never
    raises: it indexes and pops the deque only after finding it non-empty.
    Given more fuel than the log has entries it returns, having made at
    most [len(log)] removals, all from the front; and lines 60-65 as a
    whole then either fall through or raise the 429 exception, never
    [IndexError]. *)
Theorem admission_is_total {T : Type} `{Timestamp T} W (s : State T W) (now : T) (fuel : nat)
    (Hfuel : (length (_request_times (self s)) < fuel)%nat) :
  (forall fuel' e s', purge_loop fuel' now s <> Raise e s')
  /\ (exists removals,
        (removals <= length (_request_times (self s)))%nat
        /\ purge_loop fuel now s =
             Ok removals
                (set_request_times (skipn removals (_request_times (self s))) s))
  /\ ((exists s', admission fuel now s = Ok tt s')
      \/ (exists s', admission fuel now s =
                       Raise (HTTPException 429 "Rate limit exceeded") s')).
Proof.
  split; [|split].
  - intros fuel' e s'. apply purge_loop_never_raises.
  - exists (length (_request_times (self s))
            - length (purge now (window_seconds (self s))
                        (_request_times (self s))))%nat.
    split; [lia|].
    rewrite purge_loop_fuel by assumption.
    rewrite <- purge_is_skipn. reflexivity.
  - rewrite admission_eq by assumption. cbv zeta.
    destruct (_ >=? _)%Z; [right|left]; eexists; reflexivity.
Qed.

Lemma admission_is_total_witness :
  let s := {| self := {| max_requests := 1; window_seconds := 1%Q;
                         _request_times := [0; 3]%Q |};
              downstream := tt |} in
  purge_loop 3 2%Q s = Ok 1%nat (set_request_times [3%Q] s)
  /\ exists s', admission 3 2%Q s =
                  Raise (HTTPException 429 "Rate limit exceeded") s'.
Proof.
  intros s.
  pose proof (@admission_is_total Q _ unit s 2%Q 3%nat
                ltac:(simpl; lia)) as [_ [_ Hadm]].
  split; [reflexivity|].
  destruct Hadm as [[s' Hs']|Hr]; [discriminate Hs'|exact Hr].
Defined.

(** C2.  [admit(now)] performs exactly the steps of section 4.1: the
    decision and the log that lines 60-65 produce are those the three
    steps of the specification describe, and no others. *)
Theorem admission_follows_the_steps {T : Type} `{Timestamp T} (now : T) (m : RateLimiterMiddleware T)
    (d : Decision) (m' : RateLimiterMiddleware T) :
  spec_admit now m d m' <-> admit_at now m = (d, m').
Proof.
  rewrite admit_eq. cbv zeta. split.
  - intros [remaining Hp Hlen|remaining Hp Hlen];
      apply spec_purge_iff in Hp; subst remaining.
    + destruct (Z.geb_spec (Z.of_nat (length
        (purge now (window_seconds m) (_request_times m)))) (max_requests m));
        [reflexivity|lia].
    + destruct (Z.geb_spec (Z.of_nat (length
        (purge now (window_seconds m) (_request_times m)))) (max_requests m));
        [lia|reflexivity].
  - destruct (Z.geb_spec (Z.of_nat (length
      (purge now (window_seconds m) (_request_times m)))) (max_requests m));
      intros Heq; inversion Heq; subst.
    + apply spec_admit_rejected; [apply spec_purge_iff; reflexivity|lia].
    + apply spec_admit_admitted; [apply spec_purge_iff; reflexivity|lia].
Qed.

(** C6.  [dispatch] does not answer a rejected request, it raises: line 64
    leaves [dispatch] with the exception [HTTPException(status_code=429)].
    No response object is built, [call_next] is not called, and the state
    [call_next] would work on is as it was.  An admitted request is handed
    to [call_next], whose outcome is the outcome of [dispatch]. *)
Theorem rejected_requests_are_raised_not_answered
    {T : Type} `{Timestamp T} W Request Response (fuel : nat) (now : T) (request : Request)
    (call_next : Request -> M (State T W) Response) (s : State T W)
    (Hfuel : (length (_request_times (self s)) < fuel)%nat) :
  match admit_at now (self s) with
  | (REJECTED, m') =>
      dispatch fuel now request call_next s =
        Raise (HTTPException 429 "Rate limit exceeded")
              {| self := m'; downstream := downstream s |}
  | (ADMITTED, m') =>
      dispatch fuel now request call_next s =
        call_next request {| self := m'; downstream := downstream s |}
  end.
Proof.
  rewrite admit_eq. unfold dispatch, bind.
  rewrite admission_eq by assumption. cbv zeta.
  destruct (_ >=? _)%Z; reflexivity.
Qed.

(** The object of line 37 of [main.py], after ten requests at [0.0]: an
    eleventh request half a second later. *)
Lemma rejected_requests_are_raised_not_answered_witness :
  let s := {| self := with_log create_app_rate_limiter (repeat 0%float 10);
              downstream := 7%nat |} in
  let call_next := fun (request : string) (st : State float nat) =>
    Ok request {| self := self st; downstream := S (downstream st) |} in
  dispatch 11 0.5%float "GET /health"%string call_next s =
    Raise (HTTPException 429 "Rate limit exceeded") s.
Proof.
  intros s call_next.
  exact (@rejected_requests_are_raised_not_answered float _ nat string string
           11%nat 0.5%float "GET /health"%string call_next s ltac:(simpl; lia)).
Defined.

(** ** What the purge removes (any timestamp type) *)

Lemma purge_split {T : Type} `{Timestamp T} now w (log : list T) :
  exists dropped,
    log = dropped ++ purge now w log
    /\ Forall (fun e => expired now w e = true) dropped.
Proof.
  induction log as [|e rest [dropped [Heq Hall]]]; cbn [purge].
  - exists []. split; [reflexivity|constructor].
  - destruct (expired now w e) eqn:E.
    + exists (e :: dropped). split.
      * cbn [app]. rewrite <- Heq. reflexivity.
      * constructor; assumption.
    + exists []. split; [reflexivity|constructor].
Qed.

Lemma purge_front_fresh {T : Type} `{Timestamp T} now w (log : list T) e rest :
  purge now w log = e :: rest -> expired now w e = false.
Proof.
  induction log as [|x log IH]; cbn [purge]; [discriminate|].
  destruct (expired now w x) eqn:E; [exact IH|].
  intros Heq. inversion Heq; subst. exact E.
Qed.

Lemma purge_keeps_fresh {T : Type} `{Timestamp T} now w (log : list T) e :
  In e log -> expired now w e = false -> In e (purge now w log).
Proof.
  induction log as [|x log IH]; cbn [purge]; [tauto|].
  intros Hin He. destruct (expired now w x) eqn:E; [|exact Hin].
  destruct Hin as [->|Hin]; [congruence|auto].
Qed.

Lemma purge_fresh_front {T : Type} `{Timestamp T} now w (e : T) rest :
  expired now w e = false -> purge now w (e :: rest) = e :: rest.
Proof. intros E. cbn [purge]. rewrite E. reflexivity. Qed.

Lemma purge_all_expired {T : Type} `{Timestamp T} now w (log : list T) :
  Forall (fun e => expired now w e = true) log -> purge now w log = [].
Proof.
  induction 1 as [|e rest E _ IH]; cbn [purge]; [reflexivity|].
  rewrite E. exact IH.
Qed.

Lemma with_log_same {T : Type} (m : RateLimiterMiddleware T) :
  with_log m (_request_times m) = m.
Proof. destruct m; reflexivity. Qed.

(** ** Elapsed time over the rationals *)

Lemma expired_true_iff (now w e : Q) : expired now w e = true <-> w < now - e.
Proof.
  unfold expired; cbn [t_gtb t_sub Timestamp_Q]; unfold Qgtb.
  rewrite negb_true_iff, <- not_true_iff_false, Qle_bool_iff.
  split; [apply Qnot_le_lt|apply Qlt_not_le].
Qed.

Lemma expired_false_iff (now w e : Q) : expired now w e = false <-> now - e <= w.
Proof.
  unfold expired; cbn [t_gtb t_sub Timestamp_Q]; unfold Qgtb.
  rewrite negb_false_iff, Qle_bool_iff. reflexivity.
Qed.

Lemma not_expired_at_once (now w : Q) : 0 <= w -> expired now w now = false.
Proof. rewrite expired_false_iff. intros; lra. Qed.

(** ** Binary64 arithmetic: what subtraction and comparison compute

    *** Rounding to nearest, ties to even *)

Section Rounding.

Local Open Scope Z_scope.

(** The number of bits of a mantissa. *)
Lemma digits2_pos_log2 (m : positive) :
  Zpos (digits2_pos m) = Z.log2 (Zpos m) + 1.
Proof.
  assert (Hsize : forall p, digits2_pos p = Pos.size p).
  { induction p; cbn; congruence. }
  destruct m; cbn [Z.log2 digits2_pos]; rewrite ?Hsize, ?Pos2Z.inj_succ; lia.
Qed.

Lemma digits2_pos_bounds (m : positive) :
  2 ^ (Zpos (digits2_pos m) - 1) <= Zpos m < 2 ^ Zpos (digits2_pos m).
Proof.
  rewrite digits2_pos_log2.
  pose proof (Z.log2_spec (Zpos m) ltac:(lia)) as H.
  replace (Z.log2 (Z.pos m) + 1 - 1) with (Z.log2 (Z.pos m)) by lia.
  replace (Z.log2 (Z.pos m) + 1) with (Z.succ (Z.log2 (Z.pos m))) by lia.
  exact H.
Qed.

Lemma iter_pos_nat {A} (f : A -> A) (p : positive) (x : A) :
  iter_pos f p x = Nat.iter (Pos.to_nat p) f x.
Proof.
  revert x. induction p as [p IH|p IH|]; intros x; cbn [iter_pos].
  - rewrite !IH. rewrite Pos2Nat.inj_xI.
    replace (S (2 * Pos.to_nat p))%nat with (Pos.to_nat p + (Pos.to_nat p + 1))%nat by lia.
    rewrite !Nat.iter_add. reflexivity.
  - rewrite !IH. rewrite Pos2Nat.inj_xO.
    replace (2 * Pos.to_nat p)%nat with (Pos.to_nat p + Pos.to_nat p)%nat by lia.
    rewrite Nat.iter_add. reflexivity.
  - reflexivity.
Qed.

(** One right shift of a shift record: the bit shifted out becomes the round
    bit, the old round bit is absorbed by the sticky bit. *)
Lemma shr_1_nonneg (m : Z) (r s : bool) :
  0 <= m ->
  shr_1 {| shr_m := m; shr_r := r; shr_s := s |}
  = {| shr_m := m / 2; shr_r := Z.odd m; shr_s := r || s |}.
Proof.
  intros Hm. destruct m as [|p|p]; [reflexivity| |lia].
  destruct p as [p|p|]; cbn [shr_1].
  - f_equal. rewrite Pos2Z.inj_xI. apply Z.div_unique with 1; lia.
  - f_equal. rewrite Pos2Z.inj_xO. apply Z.div_unique with 0; lia.
  - reflexivity.
Qed.

(** [n + 1] right shifts of a mantissa: the quotient, the last bit shifted
    out and whether any bit below it was set. *)
Lemma shr_iter (n : nat) (m : Z) :
  0 <= m ->
  Nat.iter (S n) shr_1 {| shr_m := m; shr_r := false; shr_s := false |}
  = {| shr_m := m / 2 ^ Z.of_nat (S n);
       shr_r := Z.odd (m / 2 ^ Z.of_nat n);
       shr_s := negb (m mod 2 ^ Z.of_nat n =? 0) |}.
Proof.
  intros Hm. induction n as [|n IH].
  - cbn [Nat.iter]. rewrite shr_1_nonneg by assumption.
    cbn [Z.of_nat]. rewrite Z.pow_0_r, Z.div_1_r, Z.mod_1_r. reflexivity.
  - rewrite Nat.iter_succ, IH.
    rewrite shr_1_nonneg by (apply Z.div_pos; lia).
    assert (H2n : 0 < 2 ^ Z.of_nat n) by (apply Z.pow_pos_nonneg; lia).
    f_equal.
    + rewrite Z.div_div by lia.
      f_equal. rewrite (Nat2Z.inj_succ (S n)), Z.pow_succ_r by lia. lia.
    + rewrite (Nat2Z.inj_succ n), Z.pow_succ_r by lia.
      rewrite (Z.mul_comm 2).
      rewrite Z.rem_mul_r by lia.
      set (a := m mod 2 ^ Z.of_nat n).
      set (b := m / 2 ^ Z.of_nat n).
      assert (Ha : 0 <= a < 2 ^ Z.of_nat n) by (apply Z.mod_pos_bound; lia).
      rewrite Zodd_mod.
      assert (Hb : 0 <= b mod 2 < 2) by (apply Z.mod_pos_bound; lia).
      destruct (Z.eqb_spec (b mod 2) 1) as [E|E];
        destruct (Z.eqb_spec a 0) as [E1|E1]; cbn [orb negb]; symmetry.
      * apply negb_true_iff, Z.eqb_neq. nia.
      * apply negb_true_iff, Z.eqb_neq. nia.
      * apply negb_false_iff, Z.eqb_eq. nia.
      * apply negb_true_iff, Z.eqb_neq. nia.
Qed.

(** [rne m n] is the quotient of [m] by [2^n] or its successor, according
    to the remainder. *)
Lemma rne_spec (m n : Z) :
  0 <= n ->
  let q := m / 2 ^ n in
  let r := m mod 2 ^ n in
  m = q * 2 ^ n + r /\ 0 <= r < 2 ^ n
  /\ (rne m n = q \/ rne m n = q + 1)
  /\ (2 * r < 2 ^ n -> rne m n = q)
  /\ (2 ^ n < 2 * r -> rne m n = q + 1)
  /\ (2 * r = 2 ^ n -> rne m n = if Z.odd q then q + 1 else q).
Proof.
  intros Hn q r.
  assert (H2n : 0 < 2 ^ n) by (apply Z.pow_pos_nonneg; lia).
  assert (Hr : 0 <= r < 2 ^ n) by (apply Z.mod_pos_bound; lia).
  assert (Hm : m = q * 2 ^ n + r).
  { unfold q, r. rewrite Z.mul_comm. apply Z.div_mod. lia. }
  unfold rne. fold q r.
  destruct (Z.ltb_spec (2 ^ n) (2 * r)) as [H1|H1];
    destruct (Z.eqb_spec (2 * r) (2 ^ n)) as [H2|H2];
    destruct (Z.odd q); cbn [orb andb];
    repeat split; try tauto; try lia.
Qed.

Lemma rne_exact (a n : Z) : 0 <= n -> rne (a * 2 ^ n) n = a.
Proof.
  intros Hn.
  assert (H2n : 0 < 2 ^ n) by (apply Z.pow_pos_nonneg; lia).
  destruct (rne_spec (a * 2 ^ n) Hn) as (_ & _ & _ & Hlt & _).
  rewrite Z.mod_mul in Hlt by lia. rewrite Z.div_mul in Hlt by lia.
  apply Hlt. lia.
Qed.

(** Rounding to nearest is monotone. *)
Lemma rne_mono (m1 m2 n : Z) :
  0 <= n -> m1 <= m2 -> rne m1 n <= rne m2 n.
Proof.
  intros Hn Hle.
  assert (H2n : 0 < 2 ^ n) by (apply Z.pow_pos_nonneg; lia).
  destruct (rne_spec m1 Hn) as (E1 & R1 & C1 & L1 & G1 & T1).
  destruct (rne_spec m2 Hn) as (E2 & R2 & C2 & L2 & G2 & T2).
  pose proof (Z.div_le_mono m1 m2 (2 ^ n) H2n Hle) as Hq.
  set (q1 := m1 / 2 ^ n) in *. set (q2 := m2 / 2 ^ n) in *.
  set (r1 := m1 mod 2 ^ n) in *. set (r2 := m2 mod 2 ^ n) in *.
  destruct (Z.eq_dec q1 q2) as [Heq|Hne]; [|lia].
  assert (Hr : r1 <= r2) by nia.
  destruct (Z.lt_total (2 * r2) (2 ^ n)) as [H|[H|H]].
  - rewrite (L2 H), (L1 ltac:(lia)). lia.
  - rewrite (T2 H). destruct (Z.lt_total (2 * r1) (2 ^ n)) as [H'|[H'|H']].
    + rewrite (L1 H'). destruct (Z.odd q2); lia.
    + rewrite (T1 H'), Heq. lia.
    + lia.
  - rewrite (G2 H). lia.
Qed.

Lemma rne_scale (m n k : Z) :
  0 <= n -> 0 <= k -> rne (m * 2 ^ k) (n + k) = rne m n.
Proof.
  intros Hn Hk.
  assert (H2n : 0 < 2 ^ n) by (apply Z.pow_pos_nonneg; lia).
  assert (H2k : 0 < 2 ^ k) by (apply Z.pow_pos_nonneg; lia).
  unfold rne. rewrite Z.pow_add_r by lia.
  rewrite Z.div_mul_cancel_r by lia.
  rewrite Z.mul_mod_distr_r by lia.
  set (q := m / 2 ^ n). set (r := m mod 2 ^ n).
  replace (2 ^ n * 2 ^ k <? 2 * (r * 2 ^ k)) with (2 ^ n <? 2 * r).
  2:{ destruct (Z.ltb_spec (2 ^ n) (2 * r));
      destruct (Z.ltb_spec (2 ^ n * 2 ^ k) (2 * (r * 2 ^ k))); try reflexivity; nia. }
  replace (2 * (r * 2 ^ k) =? 2 ^ n * 2 ^ k) with (2 * r =? 2 ^ n).
  2:{ destruct (Z.eqb_spec (2 * r) (2 ^ n));
      destruct (Z.eqb_spec (2 * (r * 2 ^ k)) (2 ^ n * 2 ^ k)); try reflexivity; nia. }
  reflexivity.
Qed.

Lemma rne_nonneg_range (m n a b : Z) :
  0 <= n -> a * 2 ^ n <= m <= b * 2 ^ n -> a <= rne m n <= b.
Proof.
  intros Hn [Ha Hb].
  pose proof (rne_mono Hn Ha) as H1. pose proof (rne_mono Hn Hb) as H2.
  rewrite rne_exact in H1, H2 by assumption. lia.
Qed.

(* the rounding done by the first part of binary_round_aux *)
(** [round_nearest_even], applied to what [p] right shifts leave of a
    mantissa, computes [rne]. *)
Lemma shr_round (m : Z) (p : positive) :
  0 <= m ->
  let rec := iter_pos shr_1 p {| shr_m := m; shr_r := false; shr_s := false |} in
  round_nearest_even (shr_m rec) (loc_of_shr_record rec) = rne m (Zpos p).
Proof.
  intros Hm. cbv zeta. rewrite iter_pos_nat.
  destruct (Pos.to_nat p) as [|k] eqn:Hk; [lia|].
  rewrite shr_iter by assumption.
  assert (Hp : Zpos p = Z.of_nat (S k)) by lia.
  rewrite Hp.
  assert (H2k : 0 < 2 ^ Z.of_nat k) by (apply Z.pow_pos_nonneg; lia).
  destruct (rne_spec m (n := Z.of_nat (S k)) ltac:(lia)) as (E & R & _ & L & G & T).
  set (q := m / 2 ^ Z.of_nat (S k)) in *.
  set (r := m mod 2 ^ Z.of_nat (S k)) in *.
  assert (Hpow : 2 ^ Z.of_nat (S k) = 2 * 2 ^ Z.of_nat k)
    by (rewrite Nat2Z.inj_succ, Z.pow_succ_r; lia).
  assert (Hr : r = (m / 2 ^ Z.of_nat k) mod 2 * 2 ^ Z.of_nat k + m mod 2 ^ Z.of_nat k).
  { unfold r. rewrite Hpow, (Z.mul_comm 2), Z.rem_mul_r by lia. lia. }
  set (b := m / 2 ^ Z.of_nat k) in *.
  set (a := m mod 2 ^ Z.of_nat k) in *.
  assert (Ha : 0 <= a < 2 ^ Z.of_nat k) by (apply Z.mod_pos_bound; lia).
  assert (Hb : 0 <= b mod 2 < 2) by (apply Z.mod_pos_bound; lia).
  rewrite (Zodd_mod b).
  cbn [shr_m loc_of_shr_record].
  destruct (Z.eqb_spec (b mod 2) 1) as [Eb|Eb];
    destruct (Z.eqb_spec a 0) as [Ea|Ea]; cbn [negb round_nearest_even].
  - rewrite T by nia. rewrite <- Z.negb_odd. destruct (Z.odd q); reflexivity.
  - rewrite G by nia. reflexivity.
  - rewrite L by nia. reflexivity.
  - rewrite L by nia. reflexivity.
Qed.

End Rounding.

(** *** A format with [prec] bits of mantissa

    The value of [binary_round], of [binary_normalize] and of [SFsub]; the
    rounding is monotone and leaves the numbers of the format as they are;
    [SFcompare] compares the exact values. *)

Section Format.

Local Open Scope Z_scope.

Variables prec emax : Z.

Hypothesis Hprec : 0 < prec.
Hypothesis Hemax : prec < emax.

Lemma digits_unique (m : positive) (k : Z) :
  2 ^ (k - 1) <= Zpos m < 2 ^ k -> Zpos (digits2_pos m) = k.
Proof.
  intros H. rewrite digits2_pos_log2.
  assert (0 < k).
  { destruct (Z.le_gt_cases k 0) as [Hk|Hk]; [|lia].
    assert (2 ^ k <= 2 ^ 0) by (apply Z.pow_le_mono_r; lia).
    rewrite Z.pow_0_r in *. lia. }
  rewrite (Z.log2_unique (Zpos m) (k - 1)); [lia|lia|].
  replace (Z.succ (k - 1)) with k by lia. exact H.
Qed.

Lemma pow2_pos (k : Z) : 0 <= k -> 0 < 2 ^ k.
Proof. intros. apply Z.pow_pos_nonneg; lia. Qed.

Lemma pow2_le (a b : Z) : 0 <= a <= b -> 2 ^ a <= 2 ^ b.
Proof. intros. apply Z.pow_le_mono_r; lia. Qed.

Lemma pow2_split (a b : Z) : 0 <= a -> 0 <= b -> 2 ^ (a + b) = 2 ^ a * 2 ^ b.
Proof. intros. apply Z.pow_add_r; lia. Qed.

Lemma rne_0 (m : Z) : rne m 0 = m.
Proof.
  unfold rne. rewrite Z.pow_0_r, Z.div_1_r, Z.mod_1_r. reflexivity.
Qed.

(** The value of [binary_round_aux] on a mantissa that needs [n1 >= 0]
    right shifts: the mantissa is rounded to nearest-even; a carry into bit
    [prec] costs one more (exact) shift; an exponent above [emax - prec]
    gives the infinity. *)
Lemma binary_round_aux_value (s : bool) (m : positive) (e : Z) :
  let d := Zpos (digits2_pos m) in
  let n1 := fexp prec emax (d + e) - e in
  SpecFloat.emin prec emax <= e ->
  0 <= n1 ->
  binary_round_aux prec emax s (Zpos m) e loc_Exact <> S754_nan /\
  sf_scaled prec emax (binary_round_aux prec emax s (Zpos m) e loc_Exact)
  = cond_Zopp s (Z.min (rne (Zpos m) n1 * 2 ^ (e + n1 - SpecFloat.emin prec emax))
                       (2 ^ (emax - SpecFloat.emin prec emax))).
Proof.
  intros d n1 He Hn1.
  pose proof (digits2_pos_bounds m) as Hd. fold d in Hd.
  assert (Hdpos : 0 < d) by (unfold d; lia).
  unfold binary_round_aux, shr_fexp.
  cbn [Zdigits2]. fold d. fold n1.
  unfold fexp in n1.
  set (em := SpecFloat.emin prec emax) in *.
  assert (Hem : em = 3 - emax - prec) by reflexivity.
  destruct n1 as [|p|p] eqn:Hn; [| |lia].
  - (* no shift *)
    cbn [shr shr_record_of_loc shr_m loc_of_shr_record round_nearest_even].
    cbn [Zdigits2]. fold d. unfold fexp. fold em.
    replace (Z.max (d + e - prec) em - e) with 0 by lia.
    cbn [shr shr_record_of_loc shr_m].
    assert (Hdp : d <= prec) by lia.
    rewrite rne_0, Z.add_0_r.
    destruct (Z.leb_spec e (emax - prec)) as [Hle|Hgt];
      (split; [discriminate|]); cbn [sf_scaled]; fold em; f_equal.
    + rewrite Z.min_l; [reflexivity|].
      apply Z.le_trans with (2 ^ d * 2 ^ (e - em)).
      * apply Z.mul_le_mono_nonneg_r; [apply Z.lt_le_incl, pow2_pos|]; lia.
      * rewrite <- pow2_split by lia. apply pow2_le. lia.
    + rewrite Z.min_r; [reflexivity|].
      assert (d = prec) by lia.
      apply Z.le_trans with (2 ^ (d - 1) * 2 ^ (e - em)).
      * rewrite <- pow2_split by lia. apply pow2_le. lia.
      * apply Z.mul_le_mono_nonneg_r; [apply Z.lt_le_incl, pow2_pos|]; lia.
  - (* shift by [Z.pos p] *)
    assert (Hp : Z.pos p = d - prec) by lia.
    cbn [shr shr_record_of_loc].
    pose proof (@shr_round (Zpos m) p ltac:(lia)) as Hround. cbv zeta in Hround.
    rewrite Hround. clear Hround.
    assert (Hrange : 2 ^ (prec - 1) <= rne (Z.pos m) (Z.pos p) <= 2 ^ prec).
    { apply rne_nonneg_range; [lia|].
      rewrite <- !pow2_split by lia.
      replace (prec - 1 + Z.pos p) with (d - 1) by lia.
      replace (prec + Z.pos p) with d by lia. lia. }
    set (m' := rne (Z.pos m) (Z.pos p)) in *.
    assert (Hm'pos : 0 < m').
    { pose proof (pow2_pos (k := prec - 1) ltac:(lia)). lia. }
    destruct m' as [|pm'|pm'] eqn:Hm'; [lia| |lia].
    cbn [Zdigits2]. unfold fexp. fold em.
    destruct (Z.eq_dec (Z.pos pm') (2 ^ prec)) as [Hcarry|Hnocarry].
    + (* the mantissa became 2^prec *)
      assert (Hd' : Zpos (digits2_pos pm') = prec + 1).
      { apply digits_unique. rewrite Hcarry.
        replace (prec + 1 - 1) with prec by lia.
        split; [lia|]. apply Z.pow_lt_mono_r; lia. }
      rewrite Hd'.
      replace (Z.max (prec + 1 + (e + Z.pos p) - prec) em - (e + Z.pos p)) with 1 by lia.
      cbn [shr iter_pos]. rewrite shr_1_nonneg by lia.
      cbn [shr_m]. rewrite Hcarry.
      assert (Hhalf : 2 ^ prec = 2 ^ (prec - 1) * 2).
      { replace prec with (prec - 1 + 1) at 1 by lia.
        rewrite pow2_split by lia. rewrite Z.pow_1_r. reflexivity. }
      rewrite Hhalf.
      rewrite Z.div_mul by lia.
      pose proof (pow2_pos (k := prec - 1) ltac:(lia)) as Hpp.
      destruct (2 ^ (prec - 1)) as [|pp|pp] eqn:Hpp'; [lia| |lia].
      destruct (Z.leb_spec (e + Z.pos p + 1) (emax - prec)) as [Hle|Hgt];
        (split; [discriminate|]); cbn [sf_scaled]; fold em; f_equal.
      * rewrite <- Hpp'.
        replace (e + Z.pos p + 1 - em) with (1 + (e + Z.pos p - em)) by lia.
        rewrite (pow2_split (a := 1)) by lia.
        rewrite Z.pow_1_r.
        rewrite Z.min_l; [lia|].
        replace (2 ^ (prec - 1) * 2 * 2 ^ (e + Z.pos p - em))
          with (2 ^ (prec - 1) * 2 ^ (1 + (e + Z.pos p - em)))
          by (rewrite (pow2_split (a := 1)) by lia; rewrite Z.pow_1_r; lia).
        rewrite <- pow2_split by lia. apply pow2_le. lia.
      * rewrite Z.min_r; [reflexivity|].
        rewrite <- Hpp'.
        replace (2 ^ (prec - 1) * 2 * 2 ^ (e + Z.pos p - em))
          with (2 ^ (prec - 1) * 2 ^ (1 + (e + Z.pos p - em)))
          by (rewrite (pow2_split (a := 1)) by lia; rewrite Z.pow_1_r; lia).
        rewrite <- pow2_split by lia. apply pow2_le. lia.
    + assert (Hd' : Zpos (digits2_pos pm') = prec).
      { apply digits_unique. lia. }
      rewrite Hd'.
      replace (Z.max (prec + (e + Z.pos p) - prec) em - (e + Z.pos p)) with 0 by lia.
      cbn [shr shr_record_of_loc shr_m].
      destruct (Z.leb_spec (e + Z.pos p) (emax - prec)) as [Hle|Hgt];
        (split; [discriminate|]); cbn [sf_scaled]; fold em; f_equal.
      * rewrite Z.min_l; [reflexivity|].
        apply Z.le_trans with (2 ^ prec * 2 ^ (e + Z.pos p - em)).
        -- apply Z.mul_le_mono_nonneg_r; [apply Z.lt_le_incl, pow2_pos|]; lia.
        -- rewrite <- pow2_split by lia. apply pow2_le. lia.
      * rewrite Z.min_r; [reflexivity|].
        apply Z.le_trans with (2 ^ (prec - 1) * 2 ^ (e + Z.pos p - em)).
        -- rewrite <- pow2_split by lia. apply pow2_le. lia.
        -- apply Z.mul_le_mono_nonneg_r; [apply Z.lt_le_incl, pow2_pos|]; lia.
Qed.

Lemma shift_pos_value (d m : positive) :
  Zpos (shift_pos d m) = Zpos m * 2 ^ Zpos d.
Proof.
  unfold shift_pos.
  induction d as [|d IH] using Pos.peano_ind.
  - cbn [Pos.iter]. rewrite Pos2Z.inj_xO. change (2 ^ 1) with 2. lia.
  - rewrite Pos.iter_succ, Pos2Z.inj_xO, IH, Pos2Z.inj_succ, Z.pow_succ_r by lia. lia.
Qed.

Lemma log2_scaled (m : positive) (k : Z) :
  0 <= k -> Z.log2 (Zpos m * 2 ^ k) + 1 = Zpos (digits2_pos m) + k.
Proof.
  intros Hk. rewrite Z.log2_mul_pow2 by lia. rewrite digits2_pos_log2. lia.
Qed.

(** [binary_round] rounds the exact value [m * 2^e]. *)
Lemma binary_round_value (s : bool) (m : positive) (e : Z) :
  SpecFloat.emin prec emax <= e ->
  binary_round prec emax s m e <> S754_nan /\
  sf_scaled prec emax (binary_round prec emax s m e)
  = cond_Zopp s (round_magnitude prec emax (Zpos m * 2 ^ (e - SpecFloat.emin prec emax))).
Proof.
  intros He. unfold binary_round, shl_align, round_magnitude.
  rewrite log2_scaled by lia.
  set (d := Zpos (digits2_pos m)).
  set (em := SpecFloat.emin prec emax) in *.
  assert (Hfexp : fexp prec emax (d + e) = Z.max (d + e - prec) em) by reflexivity.
  replace (Z.max (d + (e - em) - prec) 0) with (fexp prec emax (d + e) - em) by lia.
  set (t := fexp prec emax (d + e)) in *.
  destruct (t - e) as [|p|p] eqn:Hte.
  - pose proof (binary_round_aux_value s m (e := e)) as Haux. cbv zeta in Haux.
    fold em d t in Haux. destruct Haux as [Hnn Haux]; [lia|lia|].
    split; [exact Hnn|]. rewrite Haux.
    rewrite Hte, rne_0. f_equal. f_equal.
    replace (t - em) with (0 + (e - em)) by lia.
    rewrite rne_scale, rne_0 by lia.
    f_equal. f_equal. lia.
  - pose proof (binary_round_aux_value s m (e := e)) as Haux. cbv zeta in Haux.
    fold em d t in Haux. destruct Haux as [Hnn Haux]; [lia|lia|].
    split; [exact Hnn|]. rewrite Haux.
    rewrite Hte. f_equal. f_equal.
    replace (t - em) with (Z.pos p + (e - em)) by lia.
    rewrite rne_scale by lia.
    f_equal. f_equal. lia.
  - assert (Hdz : Zpos (digits2_pos (shift_pos p m)) = d + Z.pos p).
    { apply digits_unique. rewrite shift_pos_value.
      pose proof (digits2_pos_bounds m) as Hb. fold d in Hb.
      assert (0 < d) by (unfold d; lia).
      replace (d + Z.pos p - 1) with (d - 1 + Z.pos p) by lia.
      rewrite !pow2_split by lia.
      pose proof (pow2_pos (k := Z.pos p) ltac:(lia)). nia. }
    change (Pos.iter xO m p) with (shift_pos p m).
    pose proof (binary_round_aux_value s (shift_pos p m) (e := t)) as Haux. cbv zeta in Haux.
    rewrite Hdz in Haux.
    replace (d + Z.pos p + t) with (d + e) in Haux by lia.
    fold t em in Haux. destruct Haux as [Hnn Haux]; [lia|lia|].
    split; [exact Hnn|]. rewrite Haux.
    rewrite Z.sub_diag, rne_0, Z.add_0_r, shift_pos_value.
    f_equal. f_equal.
    replace (Z.pos m * 2 ^ (e - em)) with (Z.pos m * 2 ^ Z.pos p * 2 ^ (t - em)).
    + rewrite rne_exact by lia. reflexivity.
    + rewrite <- Z.mul_assoc, <- pow2_split by lia. f_equal. f_equal. lia.
Qed.

Lemma round_magnitude_0 : round_magnitude prec emax 0 = 0.
Proof.
  unfold round_magnitude. change (Z.log2 0) with 0.
  replace (Z.max (0 + 1 - prec) 0) with 0 by lia.
  rewrite rne_0. rewrite Z.min_l; [reflexivity|].
  apply Z.lt_le_incl, pow2_pos. unfold SpecFloat.emin. lia.
Qed.

Lemma log2_upper (V : Z) : 0 <= V -> V < 2 ^ (Z.log2 V + 1).
Proof.
  intros HV. destruct (Z.eq_dec V 0) as [->|Hne].
  - reflexivity.
  - pose proof (Z.log2_spec V ltac:(lia)) as Hs.
    replace (Z.log2 V + 1) with (Z.succ (Z.log2 V)) by lia. lia.
Qed.

(** The rounding is monotone: with equally many bits rounded off because
    [rne] is; otherwise a power of two separates the two results. *)
Lemma round_magnitude_mono (V1 V2 : Z) :
  0 <= V1 <= V2 -> round_magnitude prec emax V1 <= round_magnitude prec emax V2.
Proof.
  intros HV. unfold round_magnitude.
  apply Z.min_le_compat_r.
  pose proof (Z.log2_le_mono V1 V2 ltac:(lia)) as Hlog.
  set (n1 := Z.max (Z.log2 V1 + 1 - prec) 0).
  set (n2 := Z.max (Z.log2 V2 + 1 - prec) 0).
  destruct (Z.eq_dec n1 n2) as [Heq|Hne].
  - rewrite Heq. apply Z.mul_le_mono_nonneg_r.
    + apply Z.lt_le_incl, pow2_pos. lia.
    + apply rne_mono; lia.
  - assert (Hlt : n1 < n2) by lia.
    assert (Hn2 : n2 = Z.log2 V2 + 1 - prec) by lia.
    assert (HV2 : 0 < V2).
    { destruct (Z.eq_dec V2 0) as [E|E]; [|lia].
      rewrite E in Hn2. change (Z.log2 0) with 0 in Hn2. lia. }
    pose proof (Z.log2_spec V2 HV2) as Hs2.
    pose proof (log2_upper (V := V1) ltac:(lia)) as Hs1.
    assert (H1 : rne V1 n1 <= 2 ^ prec).
    { apply (@rne_nonneg_range V1 n1 0 (2 ^ prec)); [lia|].
      split; [lia|]. rewrite <- pow2_split by lia.
      apply Z.lt_le_incl, Z.lt_le_trans with (1 := Hs1).
      apply pow2_le. pose proof (Z.log2_nonneg V1). lia. }
    assert (H2 : 2 ^ (prec - 1) <= rne V2 n2).
    { apply (@rne_nonneg_range V2 n2 (2 ^ (prec - 1)) (2 ^ prec)); [lia|].
      rewrite <- !pow2_split by lia.
      replace (prec - 1 + n2) with (Z.log2 V2) by lia.
      replace (prec + n2) with (Z.succ (Z.log2 V2)) by lia. lia. }
    apply Z.le_trans with (2 ^ prec * 2 ^ n1).
    + apply Z.mul_le_mono_nonneg_r; [apply Z.lt_le_incl, pow2_pos; lia|exact H1].
    + apply Z.le_trans with (2 ^ (prec - 1) * 2 ^ n2).
      * rewrite <- !pow2_split by lia. apply pow2_le. lia.
      * apply Z.mul_le_mono_nonneg_r; [apply Z.lt_le_incl, pow2_pos; lia|exact H2].
Qed.

Lemma round_magnitude_nonneg (V : Z) :
  0 <= V -> 0 <= round_magnitude prec emax V.
Proof.
  intros HV. rewrite <- round_magnitude_0. apply round_magnitude_mono. lia.
Qed.

Lemma sf_round_nonneg (V : Z) :
  0 <= V -> sf_round prec emax V = round_magnitude prec emax V.
Proof.
  intros HV. unfold sf_round. destruct (Z.eq_dec V 0) as [->|Hne].
  - cbn. rewrite round_magnitude_0. reflexivity.
  - rewrite Z.sgn_pos, Z.abs_eq by lia. lia.
Qed.

Lemma sf_round_opp (V : Z) : sf_round prec emax (- V) = - sf_round prec emax V.
Proof.
  unfold sf_round. rewrite Z.sgn_opp, Z.abs_opp. lia.
Qed.

Lemma sf_round_0 : sf_round prec emax 0 = 0.
Proof. reflexivity. Qed.

Lemma sf_round_mono (V1 V2 : Z) :
  V1 <= V2 -> sf_round prec emax V1 <= sf_round prec emax V2.
Proof.
  intros HV.
  destruct (Z.le_gt_cases 0 V1) as [H1|H1].
  - rewrite !sf_round_nonneg by lia. apply round_magnitude_mono. lia.
  - destruct (Z.le_gt_cases 0 V2) as [H2|H2].
    + rewrite (sf_round_nonneg (V := V2)) by lia.
      replace V1 with (- - V1) by lia. rewrite (@sf_round_opp (- V1)), sf_round_nonneg by lia.
      pose proof (round_magnitude_nonneg (V := - V1) ltac:(lia)).
      pose proof (round_magnitude_nonneg (V := V2) ltac:(lia)). lia.
    + replace V1 with (- - V1) by lia. replace V2 with (- - V2) by lia.
      rewrite (@sf_round_opp (- V1)), (@sf_round_opp (- V2)), !sf_round_nonneg by lia.
      pose proof (round_magnitude_mono (V1 := - V2) (V2 := - V1) ltac:(lia)). lia.
Qed.

Lemma binary_normalize_value (M e : Z) (sz : bool) :
  SpecFloat.emin prec emax <= e ->
  binary_normalize prec emax M e sz <> S754_nan /\
  sf_scaled prec emax (binary_normalize prec emax M e sz)
  = sf_round prec emax (M * 2 ^ (e - SpecFloat.emin prec emax)).
Proof.
  intros He.
  pose proof (pow2_pos (k := e - SpecFloat.emin prec emax) ltac:(lia)) as Hpow.
  destruct M as [|m|m]; cbn [binary_normalize].
  - split; [discriminate|]. reflexivity.
  - destruct (binary_round_value false m He) as [Hnn Hv].
    split; [exact Hnn|]. rewrite Hv. cbn [cond_Zopp].
    rewrite sf_round_nonneg by lia. reflexivity.
  - destruct (binary_round_value true m He) as [Hnn Hv].
    split; [exact Hnn|]. rewrite Hv. cbn [cond_Zopp].
    replace (Z.neg m * 2 ^ (e - SpecFloat.emin prec emax))
      with (- (Z.pos m * 2 ^ (e - SpecFloat.emin prec emax))) by lia.
    rewrite sf_round_opp, sf_round_nonneg by lia. reflexivity.
Qed.

(** The numbers of the format: [bounded m e]. *)

Lemma bounded_canonical (m : positive) (e : Z) :
  bounded prec emax m e = true ->
  SpecFloat.emin prec emax <= e <= emax - prec
  /\ Zpos (digits2_pos m) <= prec
  /\ (SpecFloat.emin prec emax < e -> Zpos (digits2_pos m) = prec).
Proof.
  unfold bounded, canonical_mantissa, fexp.
  intros H. apply andb_prop in H. destruct H as [Hc Hb].
  apply Z.eqb_eq in Hc. apply Z.leb_le in Hb. lia.
Qed.

Lemma finite_value_bounds (m : positive) (e : Z) :
  bounded prec emax m e = true ->
  0 < Zpos m * 2 ^ (e - SpecFloat.emin prec emax) < 2 ^ (emax - SpecFloat.emin prec emax).
Proof.
  intros Hb. destruct (bounded_canonical m e Hb) as (He & Hd & _).
  pose proof (digits2_pos_bounds m) as Hm.
  pose proof (pow2_pos (k := e - SpecFloat.emin prec emax) ltac:(lia)) as Hpow.
  split; [lia|].
  apply Z.lt_le_trans with (2 ^ Zpos (digits2_pos m) * 2 ^ (e - SpecFloat.emin prec emax)).
  - apply Z.mul_lt_mono_pos_r; lia.
  - rewrite <- pow2_split by lia. apply pow2_le. lia.
Qed.

Lemma round_magnitude_finite (m : positive) (e : Z) :
  bounded prec emax m e = true ->
  round_magnitude prec emax (Zpos m * 2 ^ (e - SpecFloat.emin prec emax))
  = Zpos m * 2 ^ (e - SpecFloat.emin prec emax).
Proof.
  intros Hb. destruct (bounded_canonical m e Hb) as (He & Hd & Hcan).
  pose proof (finite_value_bounds m e Hb) as Hv.
  unfold round_magnitude. rewrite log2_scaled by lia.
  replace (Z.max (Z.pos (digits2_pos m) + (e - SpecFloat.emin prec emax) - prec) 0)
    with (e - SpecFloat.emin prec emax) by lia.
  rewrite rne_exact by lia. lia.
Qed.

Lemma round_magnitude_top :
  round_magnitude prec emax (2 ^ (emax - SpecFloat.emin prec emax))
  = 2 ^ (emax - SpecFloat.emin prec emax).
Proof.
  assert (Hem : SpecFloat.emin prec emax = 3 - emax - prec) by reflexivity.
  unfold round_magnitude. rewrite Z.log2_pow2 by lia.
  replace (Z.max (emax - SpecFloat.emin prec emax + 1 - prec) 0)
    with (emax - SpecFloat.emin prec emax + 1 - prec) by lia.
  replace (2 ^ (emax - SpecFloat.emin prec emax))
    with (2 ^ (prec - 1) * 2 ^ (emax - SpecFloat.emin prec emax + 1 - prec)) at 1
    by (rewrite <- pow2_split by lia; f_equal; lia).
  rewrite rne_exact by lia.
  rewrite <- pow2_split by lia.
  replace (prec - 1 + (emax - SpecFloat.emin prec emax + 1 - prec))
    with (emax - SpecFloat.emin prec emax) by lia.
  apply Z.min_id.
Qed.

Lemma cond_Zopp_round (s : bool) (V : Z) :
  0 <= V -> sf_round prec emax (cond_Zopp s V) = cond_Zopp s (round_magnitude prec emax V).
Proof.
  intros HV. destruct s; cbn [cond_Zopp].
  - rewrite sf_round_opp, sf_round_nonneg by lia. reflexivity.
  - apply sf_round_nonneg. lia.
Qed.

(** Rounding leaves the numbers of the format as they are. *)
Lemma sf_round_id (f : spec_float) :
  SpecFloat.valid_binary prec emax f = true ->
  sf_round prec emax (sf_scaled prec emax f) = sf_scaled prec emax f.
Proof.
  destruct f as [s|s| |s m e]; cbn [SpecFloat.valid_binary sf_scaled]; intros Hv.
  - reflexivity.
  - rewrite cond_Zopp_round, round_magnitude_top; [reflexivity|].
    apply Z.lt_le_incl, pow2_pos. unfold SpecFloat.emin. lia.
  - reflexivity.
  - pose proof (finite_value_bounds m e Hv).
    rewrite cond_Zopp_round, round_magnitude_finite by (assumption || lia). reflexivity.
Qed.

Lemma finite_lt_exp (m1 m2 : positive) (e1 e2 : Z) :
  bounded prec emax m1 e1 = true ->
  bounded prec emax m2 e2 = true ->
  e1 < e2 ->
  Zpos m1 * 2 ^ (e1 - SpecFloat.emin prec emax) < Zpos m2 * 2 ^ (e2 - SpecFloat.emin prec emax).
Proof.
  intros H1 H2 Hlt.
  destruct (bounded_canonical m1 e1 H1) as (He1 & Hd1 & _).
  destruct (bounded_canonical m2 e2 H2) as (He2 & Hd2 & Hc2).
  pose proof (digits2_pos_bounds m1) as Hm1.
  pose proof (digits2_pos_bounds m2) as Hm2.
  rewrite Hc2 in Hm2 by lia.
  set (em := SpecFloat.emin prec emax) in *.
  apply Z.lt_le_trans with (2 ^ Zpos (digits2_pos m1) * 2 ^ (e1 - em)).
  - apply Z.mul_lt_mono_pos_r; [apply pow2_pos|]; lia.
  - apply Z.le_trans with (2 ^ (prec - 1) * 2 ^ (e2 - em)).
    + rewrite <- !pow2_split by lia. apply pow2_le. lia.
    + apply Z.mul_le_mono_nonneg_r; [apply Z.lt_le_incl, pow2_pos|]; lia.
Qed.

Lemma finite_compare (m1 m2 : positive) (e1 e2 : Z) :
  bounded prec emax m1 e1 = true ->
  bounded prec emax m2 e2 = true ->
  match (e1 ?= e2) with
  | Eq => Pos.compare_cont Eq m1 m2
  | Lt => Lt
  | Gt => Gt
  end
  = (Zpos m1 * 2 ^ (e1 - SpecFloat.emin prec emax)
     ?= Zpos m2 * 2 ^ (e2 - SpecFloat.emin prec emax)).
Proof.
  intros H1 H2.
  destruct (Z.compare_spec e1 e2) as [Heq|Hlt|Hgt].
  - subst e2. destruct (bounded_canonical m1 e1 H1) as (He1 & _).
    pose proof (pow2_pos (k := e1 - SpecFloat.emin prec emax) ltac:(lia)) as Hpow.
    change (Pos.compare_cont Eq m1 m2) with (Zpos m1 ?= Zpos m2).
    destruct (Z.compare_spec (Zpos m1) (Zpos m2)) as [E|L|G]; symmetry.
    + apply Z.compare_eq_iff. rewrite E. reflexivity.
    + apply Z.compare_lt_iff. apply Z.mul_lt_mono_pos_r; assumption.
    + apply Z.compare_gt_iff. apply Z.mul_lt_mono_pos_r; assumption.
  - symmetry. apply Z.compare_lt_iff. apply finite_lt_exp; assumption.
  - symmetry. apply Z.compare_gt_iff. apply finite_lt_exp; assumption.
Qed.

Lemma top_pos : 0 < 2 ^ (emax - SpecFloat.emin prec emax).
Proof. apply pow2_pos. unfold SpecFloat.emin. lia. Qed.

Ltac order_goal :=
  f_equal; symmetry;
  first [ apply Z.compare_eq_iff; lia
        | apply Z.compare_lt_iff; lia
        | apply Z.compare_gt_iff; lia ].

(** [SFcompare] compares the exact values. *)
Lemma SFcompare_value (a b : spec_float) :
  SpecFloat.valid_binary prec emax a = true ->
  SpecFloat.valid_binary prec emax b = true ->
  a <> S754_nan -> b <> S754_nan ->
  SFcompare a b = Some (sf_scaled prec emax a ?= sf_scaled prec emax b).
Proof.
  pose proof top_pos as Htop.
  destruct a as [sa|sa| |sa ma ea]; destruct b as [sb|sb| |sb mb eb];
    cbn [SpecFloat.valid_binary]; intros Ha Hb Hna Hnb; try congruence;
    try (pose proof (finite_value_bounds ma ea Ha));
    try (pose proof (finite_value_bounds mb eb Hb));
    cbn [SFcompare sf_scaled].
  - reflexivity.
  - destruct sb; cbn [cond_Zopp]; order_goal.
  - destruct sb; cbn [cond_Zopp]; order_goal.
  - destruct sa; cbn [cond_Zopp]; order_goal.
  - destruct sa, sb; cbn [cond_Zopp]; order_goal.
  - destruct sa, sb; cbn [cond_Zopp]; order_goal.
  - destruct sa; cbn [cond_Zopp]; order_goal.
  - destruct sa, sb; cbn [cond_Zopp]; order_goal.
  - destruct sa, sb; cbn [cond_Zopp]; try order_goal.
    + f_equal. rewrite Z.compare_opp.
      rewrite <- (finite_compare mb ma eb ea Hb Ha).
      rewrite (Z.compare_antisym ea eb).
      change (Pos.compare_cont Eq mb ma) with (mb ?= ma)%positive.
      rewrite (Pos.compare_antisym ma mb).
      destruct (ea ?= eb); reflexivity.
    + f_equal. apply finite_compare; assumption.
Qed.

Lemma shl_align_value (m : positive) (e ez : Z) :
  ez <= e -> Zpos (fst (shl_align m e ez)) = Zpos m * 2 ^ (e - ez).
Proof.
  intros Hle. unfold shl_align.
  destruct (ez - e) as [|p|p] eqn:Hd; cbn [fst].
  - replace (e - ez) with 0 by lia. lia.
  - lia.
  - change (Pos.iter xO m p) with (shift_pos p m).
    rewrite shift_pos_value. f_equal. f_equal. lia.
Qed.

Lemma cond_Zopp_mul (s : bool) (a b : Z) : cond_Zopp s a * b = cond_Zopp s (a * b).
Proof. destruct s; cbn [cond_Zopp]; lia. Qed.

Lemma cond_Zopp_negb (s : bool) (a : Z) : cond_Zopp (negb s) a = - cond_Zopp s a.
Proof. destruct s; cbn [cond_Zopp negb]; lia. Qed.

(** [SFsub] on finite numbers is never [nan], and its value is the exact
    difference, rounded. *)
Lemma SFsub_value (a b : spec_float) :
  SpecFloat.valid_binary prec emax a = true ->
  SpecFloat.valid_binary prec emax b = true ->
  sf_finite a = true -> sf_finite b = true ->
  SFsub prec emax a b <> S754_nan /\
  sf_scaled prec emax (SFsub prec emax a b)
  = sf_round prec emax (sf_scaled prec emax a - sf_scaled prec emax b).
Proof.
  destruct a as [sa|sa| |sa ma ea]; destruct b as [sb|sb| |sb mb eb];
    cbn [SpecFloat.valid_binary sf_finite]; intros Ha Hb Hfa Hfb; try discriminate.
  - split; [destruct sa, sb; discriminate|].
    destruct sa, sb; reflexivity.
  - cbn [SFsub]. split; [discriminate|].
    pose proof (finite_value_bounds mb eb Hb).
    cbn [sf_scaled]. rewrite Z.sub_0_l, <- cond_Zopp_negb, cond_Zopp_round by lia.
    rewrite round_magnitude_finite by assumption. reflexivity.
  - cbn [SFsub]. split; [discriminate|].
    cbn [sf_scaled]. rewrite Z.sub_0_r.
    symmetry. apply (sf_round_id (S754_finite sa ma ea)). exact Ha.
  - cbn [SFsub]. cbv zeta.
    destruct (bounded_canonical ma ea Ha) as (Hea & _).
    destruct (bounded_canonical mb eb Hb) as (Heb & _).
    set (ez := Z.min ea eb).
    destruct (binary_normalize_value
                (cond_Zopp sa (Z.pos (fst (shl_align ma ea ez))) -
                 cond_Zopp sb (Z.pos (fst (shl_align mb eb ez)))) (e := ez) false
                ltac:(lia)) as [Hnn Hv].
    split; [exact Hnn|]. rewrite Hv. f_equal.
    rewrite !shl_align_value by lia.
    rewrite Z.mul_sub_distr_r, !cond_Zopp_mul.
    rewrite <- !Z.mul_assoc, <- !pow2_split by lia.
    cbn [sf_scaled].
    replace (ea - ez + (ez - SpecFloat.emin prec emax)) with (ea - SpecFloat.emin prec emax) by lia.
    replace (eb - ez + (ez - SpecFloat.emin prec emax)) with (eb - SpecFloat.emin prec emax) by lia.
    reflexivity.
Qed.

End Format.

(** *** Binary64 *)

Section Binary64.

Local Open Scope Z_scope.

Lemma prec_pos : 0 < prec.
Proof. reflexivity. Qed.

Lemma prec_emax : prec < emax.
Proof. reflexivity. Qed.

(** [is_finite] tells the zeros and the finite numbers from the infinities
    and [nan]. *)
Lemma is_finite_SF (x : float) : is_finite x = true -> sf_finite (Prim2SF x) = true.
Proof.
  unfold is_finite, is_nan, is_infinity.
  rewrite negb_true_iff, orb_false_iff, negb_false_iff.
  rewrite !eqb_spec, abs_spec.
  change (Prim2SF infinity) with (S754_infinity false).
  destruct (Prim2SF x) as [s|s| |s m e]; cbn; intros [H1 H2];
    try reflexivity; discriminate.
Qed.

Lemma finite_not_nan (f : spec_float) : sf_finite f = true -> f <> S754_nan.
Proof. destruct f; cbn; congruence. Qed.

(** Binary64 subtraction: the exact difference, rounded. *)
Lemma sub_scaled (a b : float) :
  is_finite a = true -> is_finite b = true ->
  Prim2SF (a - b) <> S754_nan
  /\ scaled (a - b) = round_scaled (scaled a - scaled b).
Proof.
  intros Ha Hb. unfold scaled, round_scaled. rewrite sub_spec.
  apply (SFsub_value prec_pos prec_emax);
    auto using Prim2SF_valid, is_finite_SF.
Qed.

(** Binary64 comparison: the comparison of the exact values. *)
Lemma ltb_scaled (x y : float) :
  Prim2SF x <> S754_nan -> Prim2SF y <> S754_nan ->
  (x <? y)%float = (scaled x <? scaled y).
Proof.
  intros Hx Hy. rewrite ltb_spec. unfold SFltb, scaled.
  rewrite (SFcompare_value prec_pos prec_emax (Prim2SF_valid x) (Prim2SF_valid y) Hx Hy).
  unfold Z.ltb. destruct (_ ?= _); reflexivity.
Qed.

Lemma leb_scaled (x y : float) :
  Prim2SF x <> S754_nan -> Prim2SF y <> S754_nan ->
  (x <=? y)%float = (scaled x <=? scaled y).
Proof.
  intros Hx Hy. rewrite leb_spec. unfold SFleb, scaled.
  rewrite (SFcompare_value prec_pos prec_emax (Prim2SF_valid x) (Prim2SF_valid y) Hx Hy).
  unfold Z.leb. destruct (_ ?= _); reflexivity.
Qed.

Lemma round_scaled_mono (V1 V2 : Z) : V1 <= V2 -> round_scaled V1 <= round_scaled V2.
Proof. apply (sf_round_mono prec_pos prec_emax). Qed.

Lemma round_scaled_id (f : float) : round_scaled (scaled f) = scaled f.
Proof. apply (sf_round_id prec_pos prec_emax). apply Prim2SF_valid. Qed.

(** The loop condition of line 60 on binary64 numbers: the exact difference
    is rounded, then compared. *)
Lemma expired_scaled (now w e : float) :
  is_finite now = true -> is_finite w = true -> is_finite e = true ->
  expired now w e = (scaled w <? round_scaled (scaled now - scaled e)).
Proof.
  intros Hn Hw He. unfold expired. cbn [t_gtb t_sub Timestamp_float].
  destruct (sub_scaled now e Hn He) as [Hnn Hv].
  rewrite ltb_scaled, Hv; [reflexivity| |exact Hnn].
  apply finite_not_nan, is_finite_SF, Hw.
Qed.

End Binary64.

(** ** Elapsed time in binary64 arithmetic *)

Lemma exact_le (a b : float) : exact a <= exact b <-> (scaled a <= scaled b)%Z.
Proof.
  unfold exact, Qle. cbn [Qnum Qden].
  symmetry. apply Z.mul_le_mono_pos_r. apply Pos2Z.is_pos.
Qed.

Lemma exact_gap (now w e : float) :
  exact w < exact now - exact e <-> (scaled w < scaled now - scaled e)%Z.
Proof.
  unfold exact, Qlt, Qminus, Qplus, Qopp. cbn [Qnum Qden].
  rewrite Pos2Z.inj_mul.
  set (d := Z.pos (2 ^ 1074)).
  assert (Hd : (0 < d * d)%Z) by (subst d; apply Z.mul_pos_pos; apply Pos2Z.is_pos).
  replace ((scaled now * d + - scaled e * d) * d)%Z
    with ((scaled now - scaled e) * (d * d))%Z by ring.
  symmetry. apply Z.mul_lt_mono_pos_r. exact Hd.
Qed.

Lemma exact_nonneg (w : float) : 0 <= exact w <-> (0 <= scaled w)%Z.
Proof.
  unfold exact, Qle. cbn [Qnum Qden]. rewrite Z.mul_1_r.
  change (0 * Z.pos (2 ^ 1074))%Z with 0%Z. reflexivity.
Qed.

(** An entry that the loop removes is more than [window_seconds] old, in
    exact arithmetic too: rounding is monotone and [window_seconds] is a
    number of the format. *)
Lemma expired_exact (now w e : float) :
  finite_reading now -> finite_reading w -> finite_reading e ->
  expired now w e = true -> exact w < exact now - exact e.
Proof.
  intros Hn Hw He Hx. rewrite expired_scaled in Hx by assumption.
  apply Z.ltb_lt in Hx. apply exact_gap.
  destruct (Z.lt_ge_cases (scaled w) (scaled now - scaled e)) as [Hlt|Hge];
    [exact Hlt|].
  pose proof (round_scaled_mono Hge) as Hmono.
  rewrite round_scaled_id in Hmono. lia.
Qed.

(** An entry that is at most [window_seconds] old stays. *)
Lemma fresh_exact (now w e : float) :
  finite_reading now -> finite_reading w -> finite_reading e ->
  exact now - exact e <= exact w -> expired now w e = false.
Proof.
  intros Hn Hw He Hle. destruct (expired now w e) eqn:Hx; [|reflexivity].
  pose proof (expired_exact Hn Hw He Hx). lra.
Qed.

(** An entry that has expired stays expired as the clock advances. *)
Lemma expired_later (now now' w e : float) :
  finite_reading now -> finite_reading now' -> finite_reading w ->
  finite_reading e ->
  exact now <= exact now' -> expired now w e = true -> expired now' w e = true.
Proof.
  intros Hn Hn' Hw He Hle. rewrite !expired_scaled by assumption.
  rewrite !Z.ltb_lt. apply exact_le in Hle. intros Hx.
  eapply Z.lt_le_trans; [exact Hx|]. apply round_scaled_mono. lia.
Qed.

(** If an entry has expired, so has every older one. *)
Lemma expired_older (now w e e' : float) :
  finite_reading now -> finite_reading w -> finite_reading e ->
  finite_reading e' ->
  exact e <= exact e' -> expired now w e' = true -> expired now w e = true.
Proof.
  intros Hn Hw He He' Hle. rewrite !expired_scaled by assumption.
  rewrite !Z.ltb_lt. apply exact_le in Hle. intros Hx.
  eapply Z.lt_le_trans; [exact Hx|]. apply round_scaled_mono. lia.
Qed.

Lemma not_expired_at_once_float (now w : float) :
  finite_reading now -> finite_reading w ->
  0 <= exact w -> expired now w now = false.
Proof.
  intros Hn Hw Hpos. apply fresh_exact; try assumption. lra.
Qed.

Lemma within_not_expired (tk w t : float) :
  finite_reading tk -> finite_reading w -> finite_reading t ->
  within tk w t = negb (expired tk w t).
Proof.
  intros Htk Hw Ht. unfold within, expired. cbn [t_gtb t_sub Timestamp_float].
  destruct (sub_scaled tk t Htk Ht) as [Hnn _].
  pose proof (finite_not_nan (is_finite_SF w Hw)) as Hwn.
  rewrite leb_scaled, ltb_scaled by assumption.
  apply Z.leb_antisym.
Qed.

(** Some values: [0.5] and [1.05] as Python's [Fraction] gives them, and
    the number the literal [0.9999999999999999] denotes, [1 - 2^(-53)]. *)
Lemma exact_examples :
  exact 0.5 == 1 # 2
  /\ exact 1.05 == 4728779608739021 # 4503599627370496
  /\ exact 0.9999999999999999 == 1 - (1 # 2 ^ 53)
  /\ exact (-3) == - (3).
Proof. repeat split; vm_compute; reflexivity. Qed.

(** ** Logs kept oldest first *)

Lemma chronological_strongly (l : list float) :
  chronological l -> StronglySorted (fun a b => exact a <= exact b) l.
Proof.
  apply Sorted_StronglySorted. intros x y z; apply Qle_trans.
Qed.

Lemma chronological_prefix (p q : list float) :
  chronological (p ++ q) -> chronological p.
Proof.
  intros Hs. apply chronological_strongly in Hs.
  apply StronglySorted_Sorted.
  induction p as [|x p IH]; [constructor|].
  cbn [app] in Hs. apply StronglySorted_inv in Hs as [Hs Hall].
  constructor; [auto|].
  apply Forall_app in Hall. tauto.
Qed.

Lemma chronological_last (p : list float) (x : float) :
  chronological (p ++ [x]) -> Forall (fun e => exact e <= exact x) p.
Proof.
  intros Hs. apply chronological_strongly in Hs.
  induction p as [|y p IH]; [constructor|].
  cbn [app] in Hs. apply StronglySorted_inv in Hs as [Hs Hall].
  constructor; [|auto].
  apply Forall_app in Hall as [_ Hx]. inversion Hx; assumption.
Qed.

Lemma purge_incl {T : Type} `{Timestamp T} now w (log : list T) e :
  In e (purge now w log) -> In e log.
Proof.
  destruct (purge_split now w log) as (dropped & Heq & _).
  intros Hin. rewrite Heq. apply in_or_app. right. exact Hin.
Qed.

(** On a log kept oldest first, the loop removes exactly the entries that
    have expired. *)
Lemma purge_sorted_filter (now w : float) (log : list float) :
  finite_reading now -> finite_reading w -> Forall finite_reading log ->
  chronological log ->
  purge now w log = filter (fun e => negb (expired now w e)) log.
Proof.
  intros Hn Hw Hfin Hs. apply chronological_strongly in Hs.
  induction Hs as [|e rest Hs IH Hall]; [reflexivity|].
  apply Forall_cons_iff in Hfin as [He Hfin].
  cbn [purge filter]. destruct (expired now w e) eqn:E; cbn [negb].
  - apply IH. exact Hfin.
  - f_equal. symmetry. apply forallb_filter_id.
    apply forallb_forall. intros x Hx.
    rewrite Forall_forall in Hall, Hfin.
    specialize (Hall x Hx). specialize (Hfin x Hx).
    destruct (expired now w x) eqn:Ex; [|reflexivity].
    rewrite (@expired_older now w e x Hn Hw He Hfin Hall Ex) in E. discriminate.
Qed.

(** ** The boundary of the window *)

(** C3.  The purge comparison is strict, and it is made on the rounded
    difference.  On a log kept oldest first, with a window that is not
    negative: every entry [e] left after [admit(now)] has
    [now - e <= window_seconds] as binary64 arithmetic computes it
    ([within]); an entry of the log for which this holds stays in the log;
    in particular an entry that is, in exact arithmetic, no more than
    [window_seconds] old stays, the boundary included; and these entries
    count: the call is rejected exactly when they number [max_requests] or
    more. *)
Theorem purge_comparison_is_strict (now : float) (m : RateLimiterMiddleware float)
    (Hnow : finite_reading now)
    (Hwin : finite_reading (window_seconds m))
    (Hlog : Forall finite_reading (_request_times m))
    (Hsorted : chronological (_request_times m))
    (Hw : 0 <= exact (window_seconds m)) :
  (forall e, In e (_request_times (snd (admit_at now m))) ->
             within now (window_seconds m) e = true)
  /\ (forall e, In e (_request_times m) ->
                within now (window_seconds m) e = true ->
                In e (_request_times (snd (admit_at now m))))
  /\ (forall e, In e (_request_times m) ->
                exact now - exact e <= exact (window_seconds m) ->
                In e (_request_times (snd (admit_at now m))))
  /\ (fst (admit_at now m) = REJECTED <->
      (max_requests m <=
       Z.of_nat (count (within now (window_seconds m)) (_request_times m)))%Z).
Proof.
  rewrite admit_eq. cbv zeta.
  assert (Hfresh : forall e,
            In e (purge now (window_seconds m) (_request_times m)) ->
            within now (window_seconds m) e = true).
  { intros e Hin.
    assert (He : finite_reading e).
    { rewrite Forall_forall in Hlog. apply Hlog. eapply purge_incl. exact Hin. }
    rewrite purge_sorted_filter in Hin by assumption.
    apply filter_In in Hin as [_ Hin].
    rewrite within_not_expired by assumption. exact Hin. }
  assert (Hkept : forall e, In e (_request_times m) ->
            within now (window_seconds m) e = true ->
            In e (purge now (window_seconds m) (_request_times m))).
  { intros e Hin Hle.
    assert (He : finite_reading e).
    { rewrite Forall_forall in Hlog. apply Hlog. exact Hin. }
    apply purge_keeps_fresh; [assumption|].
    rewrite within_not_expired in Hle by assumption.
    apply negb_true_iff. exact Hle. }
  assert (Hexact : forall e, In e (_request_times m) ->
            exact now - exact e <= exact (window_seconds m) ->
            In e (purge now (window_seconds m) (_request_times m))).
  { intros e Hin Hle.
    assert (He : finite_reading e).
    { rewrite Forall_forall in Hlog. apply Hlog. exact Hin. }
    apply purge_keeps_fresh; [assumption|].
    apply fresh_exact; assumption. }
  assert (Hcount : length (purge now (window_seconds m) (_request_times m))
                   = count (within now (window_seconds m)) (_request_times m)).
  { rewrite purge_sorted_filter by assumption. unfold count. f_equal.
    apply filter_ext_in. intros e Hin. symmetry.
    apply within_not_expired; try assumption.
    rewrite Forall_forall in Hlog. apply Hlog. exact Hin. }
  rewrite <- Hcount.
  destruct (Z.geb_spec
              (Z.of_nat (length (purge now (window_seconds m) (_request_times m))))
              (max_requests m)) as [Hge|Hlt]; cbn [fst snd with_log _request_times].
  - split; [exact Hfresh|]. split; [exact Hkept|]. split; [exact Hexact|].
    split; [lia|reflexivity].
  - split; [|split; [|split]].
    + intros e Hin. apply in_app_or in Hin as [Hin|[<-|[]]]; [auto|].
      rewrite within_not_expired by assumption.
      rewrite not_expired_at_once_float by assumption. reflexivity.
    + intros e Hin Hle. apply in_or_app. left. auto.
    + intros e Hin Hle. apply in_or_app. left. auto.
    + split; [discriminate|lia].
Qed.

Lemma purge_comparison_is_strict_witness :
  let m := {| max_requests := 2; window_seconds := 1%float;
              _request_times := [1; 2]%float |} in
  In 1%float (_request_times (snd (admit_at 2%float m)))
  /\ fst (admit_at 2%float m) = REJECTED.
Proof.
  intros m.
  pose proof (@purge_comparison_is_strict 2%float m
                ltac:(reflexivity) ltac:(reflexivity)
                ltac:(repeat constructor)
                ltac:(repeat constructor; vm_compute; discriminate)
                ltac:(vm_compute; discriminate)) as [_ [_ [Hkept Hrej]]].
  split.
  - apply Hkept; [left; reflexivity|vm_compute; discriminate].
  - apply Hrej. vm_compute. discriminate.
Defined.

(** Against C3 read in exact arithmetic: an entry can stay in the log
    although it is more than [window_seconds] old.  The entry [0.9999999999999999] (that is
    [1 - 2^(-53)]) is [1 + 2^(-53)] old at [2.0]; the subtraction rounds
    this to [1.0], which is not greater than the window [1.0].  The log
    [[0.9999999999999999]] is the one a new object with [max_requests = 1]
    holds after a first call at that time, and the call at [2.0] is
    rejected. *)
Lemma an_entry_older_than_the_window_stays :
  let e := 0.9999999999999999%float in
  let m := {| max_requests := 1; window_seconds := 1%float;
              _request_times := [e] |} in
  run [e; 2%float] (__init__ 1 1%float) = ([ADMITTED; REJECTED], m)
  /\ In e (_request_times (snd (admit_at 2%float m)))
  /\ exact (window_seconds m) < exact 2 - exact e.
Proof.
  intros e m. split; [vm_compute; reflexivity|].
  split; [left; reflexivity|vm_compute; reflexivity].
Qed.

Lemma stale_all_expired (now w : float) (log : list float) :
  finite_reading now -> finite_reading w -> Forall finite_reading log ->
  chronological log ->
  (forall older newest, log = older ++ [newest] -> expired now w newest = true) ->
  Forall (fun e => expired now w e = true) log.
Proof.
  intros Hn Hw Hfin Hsorted Hstale.
  induction log as [|newest older _] using rev_ind; [constructor|].
  pose proof (chronological_last _ _ Hsorted) as Hle.
  assert (Hx : expired now w newest = true) by (eapply Hstale; reflexivity).
  apply Forall_app in Hfin as [Hfin Hnewest].
  apply Forall_cons_iff in Hnewest as [Hnewest _].
  apply Forall_app. split.
  - rewrite Forall_forall in *. intros e He.
    apply (@expired_older now w e newest); auto.
  - constructor; [exact Hx|constructor].
Qed.

(** C8.  If the log is kept oldest first and the loop condition of line 60
    holds of its newest entry, [now - newest > window_seconds] as binary64
    arithmetic computes it, the loop removes every entry, the call is
    admitted (for [max_requests >= 1]) and the log is left as [[now]]. *)
Theorem stale_log_is_replaced W (now : float) (s : State float W) (fuel : nat)
    (Hfuel : (length (_request_times (self s)) < fuel)%nat)
    (Hnow : finite_reading now)
    (Hwin : finite_reading (window_seconds (self s)))
    (Hlog : Forall finite_reading (_request_times (self s)))
    (Hsorted : chronological (_request_times (self s)))
    (Hmax : (1 <= max_requests (self s))%Z)
    (Hstale : forall older newest,
        _request_times (self s) = older ++ [newest] ->
        (window_seconds (self s) <? now - newest)%float = true) :
  purge_loop fuel now s =
    Ok (length (_request_times (self s))) (set_request_times [] s)
  /\ admit_at now (self s) = (ADMITTED, with_log (self s) [now]).
Proof.
  assert (Hall : purge now (window_seconds (self s)) (_request_times (self s)) = []).
  { apply purge_all_expired. apply stale_all_expired; assumption. }
  split.
  - rewrite purge_loop_fuel by assumption. rewrite Hall.
    cbn [length]. rewrite Nat.sub_0_r. reflexivity.
  - rewrite admit_eq. cbv zeta. rewrite Hall. cbn [length app].
    destruct (Z.geb_spec (Z.of_nat 0) (max_requests (self s))); [lia|reflexivity].
Qed.

Lemma stale_log_is_replaced_witness :
  let m := {| max_requests := 2; window_seconds := 1%float;
              _request_times := [0; 0.5]%float |} in
  admit_at 2%float m = (ADMITTED, with_log m [2%float]).
Proof.
  intros m.
  refine (proj2 (@stale_log_is_replaced unit 2%float
                   {| self := m; downstream := tt |} 3%nat
                   ltac:(simpl; lia)
                   ltac:(reflexivity) ltac:(reflexivity)
                   ltac:(repeat constructor)
                   ltac:(repeat constructor; vm_compute; discriminate)
                   ltac:(simpl; lia) _)).
  intros older newest Heq. cbn [self _request_times m] in Heq.
  destruct older as [|a [|b [|c older]]]; cbn [app] in Heq;
    inversion Heq; subst.
  reflexivity.
Defined.

(** Against C8 read in exact arithmetic: a log whose newest entry is more
    than [window_seconds] old need not be replaced: at [2.0] the entry
    [0.9999999999999999] is [1 + 2^(-53)] old, more than the window [1.0],
    yet the loop leaves it and the call is rejected. *)
Lemma a_stale_log_is_not_replaced :
  let newest := 0.9999999999999999%float in
  let m := {| max_requests := 1; window_seconds := 1%float;
              _request_times := [newest] |} in
  chronological (_request_times m)
  /\ (1 <= max_requests m)%Z
  /\ exact (window_seconds m) < exact 2 - exact newest
  /\ admit_at 2%float m = (REJECTED, m).
Proof.
  intros newest m. split; [repeat constructor|].
  split; [reflexivity|]. split; vm_compute; reflexivity.
Qed.

(** ** Rejection *)

(** A full log whose front entry has not expired rejects the call and is
    left as it is. *)
Lemma full_log_rejects {T : Type} `{Timestamp T} (t : T) (m : RateLimiterMiddleware T) :
  purge t (window_seconds m) (_request_times m) = _request_times m ->
  (max_requests m <= Z.of_nat (length (_request_times m)))%Z ->
  admit_at t m = (REJECTED, m).
Proof.
  intros Hfix Hfull. rewrite admit_eq. cbv zeta. rewrite Hfix.
  destruct (Z.geb_spec (Z.of_nat (length (_request_times m))) (max_requests m));
    [|lia].
  rewrite with_log_same. reflexivity.
Qed.

(** After a call at [t0], nothing in front of the log has expired at [t0]
    or at any earlier instant. *)
Lemma purge_stable_after_call (t0 t : float) (m0 : RateLimiterMiddleware float) :
  finite_reading t0 -> finite_reading t ->
  finite_reading (window_seconds m0) ->
  Forall finite_reading (_request_times m0) ->
  0 <= exact (window_seconds m0) -> exact t <= exact t0 ->
  let m := snd (admit_at t0 m0) in
  purge t (window_seconds m) (_request_times m) = _request_times m.
Proof.
  intros Ht0 Ht Hwin Hlog Hw Hle. rewrite admit_eq. cbv zeta.
  assert (Hearlier : forall e, finite_reading e ->
                               expired t0 (window_seconds m0) e = false ->
                               expired t (window_seconds m0) e = false).
  { intros e He Hx. destruct (expired t (window_seconds m0) e) eqn:E;
      [|reflexivity].
    rewrite (@expired_later t t0 (window_seconds m0) e Ht Ht0 Hwin He Hle E) in Hx.
    discriminate. }
  assert (Hfront : forall e rest,
            purge t0 (window_seconds m0) (_request_times m0) = e :: rest ->
            finite_reading e).
  { intros e rest Hp. rewrite Forall_forall in Hlog. apply Hlog.
    apply (purge_incl t0 (window_seconds m0)). rewrite Hp. left. reflexivity. }
  destruct (purge t0 (window_seconds m0) (_request_times m0))
    as [|e rest] eqn:Hp;
    destruct (_ >=? _)%Z; cbn [snd with_log _request_times window_seconds app].
  - reflexivity.
  - apply purge_fresh_front. apply Hearlier; [exact Ht0|].
    apply not_expired_at_once_float; assumption.
  - apply purge_fresh_front, Hearlier; [eapply Hfront; reflexivity|].
    eapply purge_front_fresh; eassumption.
  - apply purge_fresh_front, Hearlier; [eapply Hfront; reflexivity|].
    eapply purge_front_fresh; eassumption.
Qed.

(** C5.  A rejected call changes the log by the purge only.  For a call at
    [t0]: if it is rejected, the log it leaves is the purged log; if the
    purged log is full, it is rejected; and once the log it leaves is full,
    any further calls with timestamps no later than [t0] are all rejected
    and leave the object as it is. *)
Theorem rejection_is_idempotent (t0 : float) (m0 : RateLimiterMiddleware float)
    (ts : list float)
    (Ht0 : finite_reading t0)
    (Hwin : finite_reading (window_seconds m0))
    (Hlog : Forall finite_reading (_request_times m0))
    (Hfin : Forall finite_reading ts)
    (Hw : 0 <= exact (window_seconds m0))
    (Hts : Forall (fun t => exact t <= exact t0) ts) :
  let d0 := fst (admit_at t0 m0) in
  let m := snd (admit_at t0 m0) in
  (d0 = REJECTED ->
   m = with_log m0 (purge t0 (window_seconds m0) (_request_times m0)))
  /\ ((max_requests m0 <=
       Z.of_nat (length (purge t0 (window_seconds m0) (_request_times m0))))%Z ->
      d0 = REJECTED)
  /\ ((max_requests m <= Z.of_nat (length (_request_times m)))%Z ->
      run ts m = (repeat REJECTED (length ts), m)).
Proof.
  cbv zeta. split; [|split].
  - rewrite admit_eq. cbv zeta.
    destruct (_ >=? _)%Z; cbn [fst snd]; [reflexivity|discriminate].
  - rewrite admit_eq. cbv zeta. intros Hfull.
    destruct (Z.geb_spec
                (Z.of_nat (length (purge t0 (window_seconds m0) (_request_times m0))))
                (max_requests m0)); [reflexivity|lia].
  - intros Hfull.
    induction Hts as [|t ts Ht _ IH]; [reflexivity|].
    apply Forall_cons_iff in Hfin as [Htf Hfin].
    cbn [run length repeat].
    rewrite full_log_rejects;
      [|apply (@purge_stable_after_call t0 t m0); assumption|exact Hfull].
    rewrite IH by assumption. reflexivity.
Qed.

Lemma rejection_is_idempotent_witness :
  let m := {| max_requests := 2; window_seconds := 1%float;
              _request_times := [0.5; 1]%float |} in
  run [1; 0.7; 0.7]%float m = ([REJECTED; REJECTED; REJECTED], m).
Proof.
  intros m.
  pose proof (@rejection_is_idempotent 1%float
                {| max_requests := 2; window_seconds := 1%float;
                   _request_times := [0.5]%float |}
                [1; 0.7; 0.7]%float
                ltac:(reflexivity) ltac:(reflexivity)
                ltac:(repeat constructor) ltac:(repeat constructor)
                ltac:(vm_compute; discriminate)
                ltac:(repeat constructor; vm_compute; discriminate))
    as [_ [_ Hrun]].
  apply Hrun. vm_compute. discriminate.
Defined.

(** ** The bound on admissions *)

Lemma window_inv_step K w t t' m admitted :
  finite_reading w -> finite_reading t' ->
  window_inv K w t m admitted -> exact t <= exact t' ->
  window_inv K w t' (snd (admit_at t' m))
    (admitted ++ match fst (admit_at t' m) with
                 | ADMITTED => [t']
                 | REJECTED => []
                 end).
Proof.
  intros Hwf Ht' (HK & Hw & Hlen & Hfin & dropped & Hadm & Hdropped) Hle.
  rewrite admit_eq. cbv zeta. rewrite HK, Hw.
  destruct (purge_split t' w (_request_times m)) as (gone & Hlog & Hgone).
  assert (Hgonefin : Forall finite_reading gone).
  { rewrite Hadm, Hlog in Hfin.
    apply Forall_app in Hfin as [_ Hfin]. apply Forall_app in Hfin. tauto. }
  assert (Hall : Forall (fun e => exact w < exact t' - exact e) (dropped ++ gone)).
  { apply Forall_app. split.
    - eapply Forall_impl; [|exact Hdropped]. cbv beta. intros e He. lra.
    - rewrite Forall_forall in *. intros e He.
      apply expired_exact; auto. }
  destruct (Z.geb_spec (Z.of_nat (length (purge t' w (_request_times m)))) K)
    as [Hge|Hlt]; cbn [fst snd]; unfold window_inv;
    cbn [with_log max_requests window_seconds _request_times].
  - split; [assumption|]. split; [assumption|]. split; [|split].
    + pose proof (purge_length t' w (_request_times m)). lia.
    + rewrite app_nil_r. exact Hfin.
    + exists (dropped ++ gone). split; [|exact Hall].
      rewrite app_nil_r, Hadm, <- app_assoc. f_equal. exact Hlog.
  - split; [assumption|]. split; [assumption|]. split; [|split].
    + rewrite length_app. cbn [length]. lia.
    + apply Forall_app. split; [exact Hfin|]. constructor; [exact Ht'|constructor].
    + exists (dropped ++ gone). split; [|exact Hall].
      rewrite Hadm, <- !app_assoc. f_equal.
      rewrite app_assoc. f_equal. exact Hlog.
Qed.

Lemma last_cons_default {A} (x d : A) (l : list A) : last (x :: l) d = last l x.
Proof.
  revert x d. induction l as [|a l IH]; intros x d; [reflexivity|].
  change (last (x :: a :: l) d) with (last (a :: l) d).
  rewrite !IH. reflexivity.
Qed.

Lemma window_inv_run K w ts :
  finite_reading w ->
  forall t m admitted,
    window_inv K w t m admitted ->
    Forall finite_reading ts ->
    chronological (t :: ts) ->
    window_inv K w (last ts t) (snd (run ts m))
      (admitted ++ admitted_times ts (fst (run ts m))).
Proof.
  intros Hwf.
  induction ts as [|t' ts IH]; intros t m admitted Hinv Hfin Hsorted.
  - cbn [run fst snd admitted_times last]. rewrite app_nil_r. exact Hinv.
  - apply Sorted_inv in Hsorted as [Hsorted Hhd].
    apply HdRel_inv in Hhd.
    apply Forall_cons_iff in Hfin as [Ht' Hfin].
    pose proof (window_inv_step Hwf Ht' Hinv Hhd) as Hstep.
    specialize (IH t' _ _ Hstep Hfin Hsorted).
    rewrite last_cons_default. cbn [run].
    destruct (admit_at t' m) as [d m1]. cbn [fst snd] in *.
    destruct (run ts m1) as [ds m2]. cbn [fst snd] in *.
    destruct d; cbn [admitted_times].
    + rewrite <- app_assoc in IH. exact IH.
    + rewrite app_nil_r in IH. exact IH.
Qed.

Lemma window_inv_count K w t m admitted :
  window_inv K w t m admitted ->
  (Z.of_nat (count (fun e => in_window (exact t) (exact w) (exact e)) admitted)
   <= K)%Z.
Proof.
  intros (_ & _ & Hlen & _ & dropped & -> & Hdropped).
  unfold count. rewrite filter_app, length_app.
  assert (Hnone : filter (fun e => in_window (exact t) (exact w) (exact e))
                    dropped = []).
  { clear - Hdropped. induction Hdropped as [|e l He _ IH]; [reflexivity|].
    cbn [filter].
    assert (Hout : in_window (exact t) (exact w) (exact e) = false).
    { unfold in_window, Qgtb. apply andb_false_iff. left.
      rewrite negb_false_iff, Qle_bool_iff. lra. }
    rewrite Hout. exact IH. }
  rewrite Hnone. cbn [length].
  pose proof (filter_length_le (fun e => in_window (exact t) (exact w) (exact e))
                (_request_times m)). lia.
Qed.

(** C1.  Take any calls with timestamps [t1 <= t2 <= ... <= tn] on a new
    object, with [max_requests] not negative.  After every prefix, ending
    in a call at [tk] say, the log holds at most [max_requests] entries and
    at most [max_requests] of the calls admitted so far have their
    timestamp in [(tk - window_seconds, tk]], an interval of exact
    arithmetic.  The timestamps and the window are binary64 numbers and
    the decisions are those the rounded subtraction of line 60 leads to. *)
Theorem admissions_are_bounded (K : Z) (w : float) (ts : list float)
    (HK : (0 <= K)%Z)
    (Hw : finite_reading w)
    (Hfin : Forall finite_reading ts)
    (Hts : chronological ts) :
  forall p tk rest, ts = p ++ tk :: rest ->
    let r := run (p ++ [tk]) (__init__ K w) in
    (Z.of_nat (length (_request_times (snd r))) <= K)%Z
    /\ (Z.of_nat (count (fun t => in_window (exact tk) (exact w) (exact t))
                    (admitted_times (p ++ [tk]) (fst r))) <= K)%Z.
Proof.
  intros p tk rest Heq. cbv zeta.
  assert (Hprefix : chronological (p ++ [tk])).
  { apply chronological_prefix with (q := rest).
    rewrite <- app_assoc. cbn [app]. rewrite <- Heq. exact Hts. }
  assert (Hpfin : Forall finite_reading (p ++ [tk])).
  { rewrite Heq in Hfin. apply Forall_app in Hfin as [Hp Hrest].
    apply Forall_cons_iff in Hrest as [Htk _].
    apply Forall_app. split; [exact Hp|]. constructor; [exact Htk|constructor]. }
  assert (Hinv : window_inv K w tk (snd (run (p ++ [tk]) (__init__ K w)))
                   (admitted_times (p ++ [tk])
                      (fst (run (p ++ [tk]) (__init__ K w))))).
  { pose proof (last_last p tk tk) as Hlast.
    destruct (p ++ [tk]) as [|t1 ts1] eqn:Hp;
      [destruct p; discriminate|].
    assert (Hinit : window_inv K w t1 (__init__ K w) []).
    { unfold window_inv, __init__;
        cbn [max_requests window_seconds _request_times length].
      split; [reflexivity|]. split; [reflexivity|]. split; [lia|].
      split; [constructor|].
      exists []. split; [reflexivity|constructor]. }
    assert (Hsorted : chronological (t1 :: t1 :: ts1)).
    { constructor; [exact Hprefix|]. constructor. apply Qle_refl. }
    pose proof (window_inv_run Hw Hinit Hpfin Hsorted) as Hrun.
    rewrite last_cons_default in Hrun, Hlast. rewrite Hlast in Hrun.
    exact Hrun. }
  split.
  - destruct Hinv as (_ & _ & Hlen & _). exact Hlen.
  - eapply window_inv_count. exact Hinv.
Qed.

Lemma admissions_are_bounded_witness :
  let r := run [0; 0.5; 1; 1.2]%float (__init__ 2 1%float) in
  (Z.of_nat (length (_request_times (snd r))) <= 2)%Z
  /\ (Z.of_nat (count (fun t => in_window (exact 1.2) (exact 1) (exact t))
                  (admitted_times [0; 0.5; 1; 1.2]%float (fst r))) <= 2)%Z.
Proof.
  exact (@admissions_are_bounded 2%Z 1%float [0; 0.5; 1; 1.2; 3]%float
           ltac:(lia) ltac:(reflexivity) ltac:(repeat constructor)
           ltac:(repeat constructor; vm_compute; discriminate)
           [0; 0.5; 1]%float 1.2%float [3]%float eq_refl).
Defined.

(** ** Requests that arrive together *)

Lemma count_cons {A} (p : A -> bool) x l :
  count p (x :: l) = ((if p x then 1 else 0) + count p l)%nat.
Proof. unfold count. cbn [filter]. destruct (p x); reflexivity. Qed.

Lemma count_list_set {A} (p : A -> bool) i x y (l : list A) :
  nth_error l i = Some y ->
  (count p (list_set i x l) + (if p y then 1 else 0)
   = count p l + (if p x then 1 else 0))%nat.
Proof.
  revert i. induction l as [|z l IH]; intros [|i] Hnth; try discriminate.
  - cbn [nth_error] in Hnth. inversion Hnth; subst.
    cbn [list_set]. rewrite !count_cons. lia.
  - cbn [nth_error] in Hnth. cbn [list_set]. rewrite !count_cons.
    specialize (IH i Hnth). lia.
Qed.

Lemma Forall_list_set {A} (P : A -> Prop) i x (l : list A) :
  P x -> Forall P l -> Forall P (list_set i x l).
Proof.
  intros Hx Hl. revert i. induction Hl as [|z l Hz Hl IH]; intros [|i];
    cbn [list_set]; constructor; auto.
Qed.

Lemma length_list_set {A} i x (l : list A) : length (list_set i x l) = length l.
Proof.
  revert i. induction l as [|z l IH]; intros [|i]; cbn [list_set length];
    auto.
Qed.

Lemma count_repeat_false {A} (p : A -> bool) x n :
  p x = false -> count p (repeat x n) = 0%nat.
Proof.
  intros Hp. induction n as [|n IH]; [reflexivity|].
  cbn [repeat]. rewrite count_cons, Hp. exact IH.
Qed.

Lemma count_all {A} (p : A -> bool) (l : list A) :
  forallb p l = true -> count p l = length l.
Proof.
  induction l as [|x l IH]; [reflexivity|].
  cbn [forallb]. intros Hb. apply andb_prop in Hb as [Hx Hl].
  rewrite count_cons, Hx. cbn [length]. rewrite IH by assumption. reflexivity.
Qed.

Lemma repeat_snoc {A} (x : A) n : repeat x n ++ [x] = repeat x (S n).
Proof.
  induction n as [|n IH]; [reflexivity|].
  cbn [repeat app]. rewrite IH. reflexivity.
Qed.

(** Entries made at [now] have not expired at [now]. *)
Lemma purge_same_instant (now w : Q) n :
  0 <= w -> purge now w (repeat now n) = repeat now n.
Proof.
  intros Hw. destruct n as [|n]; [reflexivity|].
  cbn [repeat]. apply purge_fresh_front. apply not_expired_at_once. exact Hw.
Qed.

Lemma sched_inv_resume W (handler : W -> W) (K : Z) (w now : Q) i (l : Loop Q W) :
  0 <= w ->
  sched_inv K w now l -> sched_inv K w now (resume handler i l).
Proof.
  intros Hw (HK & Hwin & Hlog & Hall & Hadm & Hpart).
  unfold resume. destruct (nth_error (tasks l) i) as [t|] eqn:Hnth;
    [|repeat split; assumption].
  pose proof (count_list_set (@is_admitted Q) i) as Ca.
  pose proof (count_list_set (@started Q) i) as Cs.
  pose proof (count_list_set (@is_rejected Q) i) as Cr.
  assert (Ht : t = Created now \/ is_admitted t = true \/ is_rejected t = true).
  { rewrite Forall_forall in Hall. apply Hall.
    eapply nth_error_In; eassumption. }
  destruct t as [now'| |e|].
  - (* a created task runs lines 58-65 *)
    destruct Ht as [Ht|[Ht|Ht]]; try discriminate. inversion Ht; subst now'.
    rewrite admission_eq by lia. cbv zeta.
    rewrite Hwin, HK, Hlog, purge_same_instant by assumption.
    rewrite repeat_length.
    destruct (Z.geb_spec (Z.of_nat (count is_admitted (tasks l))) K) as [Hge|Hlt].
    + specialize (Ca (Raised (HTTPException 429 "Rate limit exceeded")) _ _ Hnth).
      specialize (Cs (Raised (HTTPException 429 "Rate limit exceeded")) _ _ Hnth).
      specialize (Cr (Raised (HTTPException 429 "Rate limit exceeded")) _ _ Hnth).
      cbn [is_admitted started is_rejected] in Ca, Cs, Cr.
      unfold sched_inv.
      cbn [shared tasks self set_request_times max_requests window_seconds
           _request_times].
      repeat split; try assumption.
      * f_equal. lia.
      * apply Forall_list_set; [right; right; reflexivity|assumption].
      * lia.
      * lia.
    + specialize (Ca Awaiting _ _ Hnth).
      specialize (Cs Awaiting _ _ Hnth).
      specialize (Cr Awaiting _ _ Hnth).
      cbn [is_admitted started is_rejected] in Ca, Cs, Cr.
      unfold sched_inv.
      cbn [shared tasks self set_request_times max_requests window_seconds
           _request_times].
      repeat split; try assumption.
      * rewrite repeat_snoc. f_equal. lia.
      * apply Forall_list_set; [right; left; reflexivity|assumption].
      * lia.
      * lia.
  - (* a suspended task gets its response *)
    specialize (Ca Returned _ _ Hnth).
    specialize (Cs Returned _ _ Hnth).
    specialize (Cr Returned _ _ Hnth).
    cbn [is_admitted started is_rejected] in Ca, Cs, Cr.
    unfold sched_inv. cbn [shared tasks self].
    repeat split; try assumption.
    + rewrite Hlog. f_equal. lia.
    + apply Forall_list_set; [right; left; reflexivity|assumption].
    + lia.
    + lia.
  - repeat split; assumption.
  - repeat split; assumption.
Qed.

Lemma sched_inv_event_loop W (handler : W -> W) (K : Z) (w now : Q) schedule :
  0 <= w ->
  forall l : Loop Q W,
    sched_inv K w now l -> sched_inv K w now (event_loop handler schedule l).
Proof.
  intros Hw. unfold event_loop.
  induction schedule as [|i schedule IH]; intros l Hinv; [exact Hinv|].
  cbn [fold_left]. apply IH. apply sched_inv_resume; assumption.
Qed.

Lemma length_tasks_resume {T} `{Timestamp T} W (handler : W -> W) i (l : Loop T W) :
  length (tasks (resume handler i l)) = length (tasks l).
Proof.
  unfold resume. destruct (nth_error (tasks l) i) as [[now'| |e|]|];
    try reflexivity.
  - destruct (admission _ _ _); cbn [tasks];
      rewrite ?length_list_set; reflexivity.
  - cbn [tasks]. apply length_list_set.
Qed.

Lemma length_tasks_event_loop {T} `{Timestamp T} W (handler : W -> W) schedule :
  forall l : Loop T W,
    length (tasks (event_loop handler schedule l)) = length (tasks l).
Proof.
  unfold event_loop.
  induction schedule as [|i schedule IH]; intros l; [reflexivity|].
  cbn [fold_left]. rewrite IH. apply length_tasks_resume.
Qed.

(** Calls made one after the other at the same instant: the first
    [max_requests] are admitted, the others rejected. *)
Lemma run_same_instant (K : Z) (w now : Q) (j : nat) :
  0 <= w ->
  forall a : nat,
    (a <= Z.to_nat K)%nat ->
    run (repeat now j) (with_log (__init__ K w) (repeat now a))
    = (repeat ADMITTED (Nat.min j (Z.to_nat K - a))
         ++ repeat REJECTED (j - Nat.min j (Z.to_nat K - a)),
       with_log (__init__ K w) (repeat now (a + Nat.min j (Z.to_nat K - a)))).
Proof.
  intros Hw. induction j as [|j IH]; intros a Ha.
  - cbn [repeat run Nat.min Nat.sub app]. rewrite Nat.add_0_r. reflexivity.
  - cbn [repeat run]. rewrite admit_eq. cbv zeta.
    cbn [with_log __init__ max_requests window_seconds _request_times].
    rewrite purge_same_instant by assumption. rewrite repeat_length.
    destruct (Z.geb_spec (Z.of_nat a) K) as [Hge|Hlt].
    + change (with_log (with_log (__init__ K w) (repeat now a)) (repeat now a))
        with (with_log (__init__ K w) (repeat now a)).
      rewrite IH by assumption.
      replace (Z.to_nat K - a)%nat with 0%nat by lia.
      rewrite !Nat.min_0_r, !Nat.sub_0_r. reflexivity.
    + rewrite repeat_snoc.
      change (with_log (with_log (__init__ K w) (repeat now a)) (repeat now (S a)))
        with (with_log (__init__ K w) (repeat now (S a))).
      rewrite IH by lia.
      replace (Z.to_nat K - a)%nat with (S (Z.to_nat K - S a)) by lia.
      rewrite <- Nat.succ_min_distr. cbn [repeat app Nat.sub].
      rewrite Nat.add_succ_r. reflexivity.
Qed.

Lemma sched_inv_arrivals W (N : nat) (K : Z) (w now : Q) (d : W) :
  (0 <= K)%Z -> sched_inv K w now (arrivals N now K w d).
Proof.
  intros HK. unfold sched_inv, arrivals.
  cbn [shared tasks self __init__ max_requests window_seconds _request_times].
  rewrite !count_repeat_false by reflexivity.
  repeat split; try reflexivity.
  - apply Forall_forall. intros t Ht. left. eapply repeat_spec. exact Ht.
  - cbn [Z.of_nat]. lia.
Qed.



(** ** The recovery scenario *)

Set Warnings "-inexact-float".

(** C7.  With [max_requests = 2] and [window_seconds = 1.0], calls at
    0.0, 0.1, 0.2, 1.05 and 1.05 are admitted, admitted, rejected, admitted
    and rejected, and the log ends as [[0.1, 1.05]].  This holds with the
    timestamps read as exact rationals and with the same decimal literals
    read as binary64 numbers, the arithmetic CPython performs. *)
Theorem recovery_after_window_elapses :
  run [0; 0.1; 0.2; 1.05; 1.05]%Q (__init__ 2 1%Q)
    = ([ADMITTED; ADMITTED; REJECTED; ADMITTED; REJECTED],
       {| max_requests := 2; window_seconds := 1%Q;
          _request_times := [0.1; 1.05]%Q |})
  /\
  run [0; 0.1; 0.2; 1.05; 1.05]%float (__init__ 2 1%float)
    = ([ADMITTED; ADMITTED; REJECTED; ADMITTED; REJECTED],
       {| max_requests := 2; window_seconds := 1%float;
          _request_times := [0.1; 1.05]%float |}).
Proof. split; vm_compute; reflexivity. Qed.

(** * Further properties of the rate limiter *)

Lemma strongly_sorted_suffix (a b : list float) :
  StronglySorted (fun x y => exact x <= exact y) (a ++ b) ->
  StronglySorted (fun x y => exact x <= exact y) b.
Proof.
  induction a as [|x a IH]; [auto|].
  cbn [app]. intros Hs. apply StronglySorted_inv in Hs as [Hs _]. auto.
Qed.

Lemma strongly_sorted_snoc (l : list float) (x : float) :
  StronglySorted (fun a b => exact a <= exact b) l ->
  Forall (fun e => exact e <= exact x) l ->
  StronglySorted (fun a b => exact a <= exact b) (l ++ [x]).
Proof.
  induction 1 as [|y l Hs IH Hy]; intros Hall; cbn [app].
  - constructor; constructor.
  - apply Forall_cons_iff in Hall as [Hyx Hall].
    constructor; [auto|].
    apply Forall_app. split; [exact Hy|]. constructor; [exact Hyx|constructor].
Qed.

Lemma filter_none {A} (p : A -> bool) (l : list A) :
  Forall (fun x => p x = false) l -> filter p l = [].
Proof.
  induction 1 as [|x l Hx _ IH]; [reflexivity|].
  cbn [filter]. rewrite Hx. exact IH.
Qed.

Lemma filter_all {A} (p : A -> bool) (l : list A) :
  Forall (fun x => p x = true) l -> filter p l = l.
Proof.
  induction 1 as [|x l Hx _ IH]; [reflexivity|].
  cbn [filter]. rewrite Hx, IH. reflexivity.
Qed.

Lemma history_inv_init (K : Z) (w t : float) : history_inv K w t (__init__ K w) [].
Proof.
  unfold history_inv, __init__; cbn [max_requests window_seconds _request_times].
  split; [reflexivity|]. split; [reflexivity|].
  split; [constructor|]. split; [constructor|]. split; [constructor|].
  exists []. split; [reflexivity|]. split; constructor.
Qed.

Lemma history_inv_log_finite K w t m admitted :
  history_inv K w t m admitted -> Forall finite_reading (_request_times m).
Proof.
  intros (_ & _ & Hfin & _ & _ & dropped & Hadm & _).
  rewrite Hadm in Hfin. apply Forall_app in Hfin. tauto.
Qed.

Lemma history_inv_log_sorted K w t m admitted :
  history_inv K w t m admitted -> chronological (_request_times m).
Proof.
  intros (_ & _ & _ & Hsorted & _ & dropped & Hadm & _).
  apply StronglySorted_Sorted. apply strongly_sorted_suffix with (a := dropped).
  rewrite <- Hadm. exact Hsorted.
Qed.

(** The entries dropped so far, and those the loop drops at [t'], have all
    expired at [t']. *)
Lemma history_inv_dropped (w t t' : float) (m : RateLimiterMiddleware float)
    (admitted dropped gone : list float) :
  finite_reading w -> finite_reading t -> finite_reading t' ->
  Forall finite_reading admitted ->
  exact t <= exact t' ->
  admitted = dropped ++ _request_times m ->
  Forall (fun e => expired t w e = true) dropped ->
  Forall (fun e => expired t' w e = true) gone ->
  Forall (fun e => expired t' w e = true) (dropped ++ gone).
Proof.
  intros Hwf Ht Ht' Hfin Htt Hadm Hdropped Hgone.
  apply Forall_app. split; [|exact Hgone].
  rewrite Hadm in Hfin. apply Forall_app in Hfin as [Hfin _].
  rewrite Forall_forall in *. intros e He.
  apply (@expired_later t t' w e); auto.
Qed.

Lemma history_inv_step K w t t' m admitted :
  finite_reading w -> finite_reading t -> finite_reading t' ->
  0 <= exact w ->
  history_inv K w t m admitted -> exact t <= exact t' ->
  history_inv K w t' (snd (admit_at t' m))
    (admitted ++ match fst (admit_at t' m) with
                 | ADMITTED => [t']
                 | REJECTED => []
                 end).
Proof.
  intros Hwf Ht Ht' Hw Hinv Htt.
  pose proof (history_inv_log_finite Hinv) as Hlogfin.
  pose proof (history_inv_log_sorted Hinv) as Hlog.
  destruct Hinv as (HK & Hwin & Hfin & Hsorted & Hle & dropped & Hadm
                    & Hdropped & Hfresh).
  assert (Hle' : Forall (fun e => exact e <= exact t') admitted).
  { eapply Forall_impl; [|exact Hle]. cbv beta. intros e He. lra. }
  destruct (purge_split t' w (_request_times m)) as (gone & Hsplit & Hgone).
  pose proof (history_inv_dropped m Hwf Ht Ht' Hfin Htt Hadm Hdropped Hgone)
    as Hall.
  assert (Hkept : Forall (fun e => expired t' w e = false)
                    (purge t' w (_request_times m))).
  { rewrite purge_sorted_filter by assumption.
    apply Forall_forall. intros e He. apply filter_In in He as [_ He].
    apply negb_true_iff. exact He. }
  rewrite admit_eq. cbv zeta. rewrite HK, Hwin.
  destruct (Z.geb_spec (Z.of_nat (length (purge t' w (_request_times m)))) K)
    as [Hge|Hlt]; cbn [fst snd]; unfold history_inv;
    cbn [with_log max_requests window_seconds _request_times].
  - rewrite app_nil_r.
    split; [assumption|]. split; [assumption|]. split; [assumption|].
    split; [assumption|]. split; [assumption|].
    exists (dropped ++ gone). split; [|split; assumption].
    rewrite Hadm, <- app_assoc. f_equal. exact Hsplit.
  - split; [assumption|]. split; [assumption|].
    split; [|split; [|split]].
    + apply Forall_app. split; [exact Hfin|]. constructor; [exact Ht'|constructor].
    + apply strongly_sorted_snoc; assumption.
    + apply Forall_app. split; [exact Hle'|].
      constructor; [apply Qle_refl|constructor].
    + exists (dropped ++ gone). split; [|split; [assumption|]].
      * rewrite Hadm, <- !app_assoc. f_equal.
        rewrite app_assoc. f_equal. exact Hsplit.
      * apply Forall_app. split; [exact Hkept|].
        constructor; [apply not_expired_at_once_float; assumption|constructor].
Qed.

Lemma history_inv_run K w ts :
  finite_reading w -> 0 <= exact w ->
  forall t m admitted,
    finite_reading t ->
    history_inv K w t m admitted ->
    Forall finite_reading ts ->
    chronological (t :: ts) ->
    history_inv K w (last ts t) (snd (run ts m))
      (admitted ++ admitted_times ts (fst (run ts m))).
Proof.
  intros Hwf Hw.
  induction ts as [|t' ts IH]; intros t m admitted Ht Hinv Hfin Hsorted.
  - cbn [run fst snd admitted_times last]. rewrite app_nil_r. exact Hinv.
  - apply Sorted_inv in Hsorted as [Hsorted Hhd].
    apply HdRel_inv in Hhd.
    apply Forall_cons_iff in Hfin as [Ht' Hfin].
    pose proof (history_inv_step Hwf Ht Ht' Hw Hinv Hhd) as Hstep.
    specialize (IH t' _ _ Ht' Hstep Hfin Hsorted).
    rewrite last_cons_default. cbn [run].
    destruct (admit_at t' m) as [d m1]. cbn [fst snd] in *.
    destruct (run ts m1) as [ds m2]. cbn [fst snd] in *.
    destruct d; cbn [admitted_times].
    + rewrite <- app_assoc in IH. exact IH.
    + rewrite app_nil_r in IH. exact IH.
Qed.

(** The state after a non-empty series of calls, seen from the last one. *)
Lemma history_at_last K w (p : list float) (tk : float) :
  finite_reading w -> 0 <= exact w ->
  Forall finite_reading (p ++ [tk]) ->
  chronological (p ++ [tk]) ->
  history_inv K w tk (snd (run (p ++ [tk]) (__init__ K w)))
    (admitted_times (p ++ [tk]) (fst (run (p ++ [tk]) (__init__ K w)))).
Proof.
  intros Hwf Hw Hfin Hsorted.
  pose proof (last_last p tk tk) as Hlast.
  destruct (p ++ [tk]) as [|t1 ts1] eqn:Hp; [destruct p; discriminate|].
  assert (Hs : chronological (t1 :: t1 :: ts1)).
  { constructor; [exact Hsorted|]. constructor. apply Qle_refl. }
  assert (Ht1 : finite_reading t1) by (inversion Hfin; assumption).
  pose proof (history_inv_run Hwf Hw Ht1 (history_inv_init K w t1) Hfin Hs)
    as Hrun.
  rewrite last_cons_default in Hrun, Hlast. rewrite Hlast in Hrun.
  exact Hrun.
Qed.

(** The state after any series of calls, seen from an instant [tk] that is
    not earlier than any of them. *)
Lemma history_reached K w (ts : list float) (tk : float) :
  finite_reading w -> 0 <= exact w -> finite_reading tk ->
  Forall finite_reading ts ->
  chronological ts -> Forall (fun e => exact e <= exact tk) ts ->
  exists t,
    finite_reading t
    /\ exact t <= exact tk
    /\ history_inv K w t (snd (run ts (__init__ K w)))
         (admitted_times ts (fst (run ts (__init__ K w)))).
Proof.
  intros Hwf Hw Htk Hfin Hsorted Hle.
  destruct ts as [|t0 ts0] using rev_ind.
  - exists tk. split; [exact Htk|]. split; [apply Qle_refl|apply history_inv_init].
  - clear IHts0. exists t0.
    pose proof Hfin as Hfin'. apply Forall_app in Hfin' as [_ Ht0].
    split; [inversion Ht0; assumption|]. split.
    + apply Forall_app in Hle as [_ Hle]. inversion Hle; assumption.
    + apply history_at_last; assumption.
Qed.

(** ** The log and the history of admissions *)

(** X1.  As long as the clock does not go back, the log stays in order,
    oldest entry first, holds only timestamps of admitted calls, and the
    two settings are those given to the constructor. *)
Theorem log_is_kept_in_order (K : Z) (w : float) (ts : list float)
    (Hwf : finite_reading w)
    (Hw : 0 <= exact w)
    (Hfin : Forall finite_reading ts)
    (Hts : chronological ts) :
  let r := run ts (__init__ K w) in
  chronological (_request_times (snd r))
  /\ (forall e, In e (_request_times (snd r)) ->
                In e (admitted_times ts (fst r)))
  /\ max_requests (snd r) = K
  /\ window_seconds (snd r) = w.
Proof.
  cbv zeta.
  assert (Hinv : exists t, history_inv K w t (snd (run ts (__init__ K w)))
                   (admitted_times ts (fst (run ts (__init__ K w))))).
  { destruct ts as [|t0 ts0] using rev_ind.
    - exists w. apply history_inv_init.
    - exists t0. apply history_at_last; assumption. }
  destruct Hinv as (t & Hinv).
  pose proof (history_inv_log_sorted Hinv) as Hsorted.
  destruct Hinv as (HK & Hwin & _ & _ & _ & dropped & Hadm & _ & _).
  split; [exact Hsorted|]. split; [|split; assumption].
  intros e He. rewrite Hadm. apply in_or_app. right. exact He.
Qed.

Lemma log_is_kept_in_order_witness :
  let r := run [0; 0.5; 0.5; 1.2; 1.8]%float (__init__ 2 1%float) in
  chronological (_request_times (snd r))
  /\ max_requests (snd r) = 2%Z.
Proof.
  pose proof (@log_is_kept_in_order 2%Z 1%float [0; 0.5; 0.5; 1.2; 1.8]%float
                ltac:(reflexivity)
                ltac:(vm_compute; discriminate)
                ltac:(repeat constructor)
                ltac:(repeat constructor; vm_compute; discriminate))
    as [Hs [_ [HK _]]].
  split; [exact Hs|exact HK].
Defined.

(** X2.  After a call at [tk], the log is exactly the list of the
    timestamps [t] admitted so far for which [tk - t <= window_seconds] in
    binary64 arithmetic ([within]), in the order of admission. *)
Theorem log_holds_the_recent_admissions (K : Z) (w : float) (p : list float)
    (tk : float)
    (Hwf : finite_reading w)
    (Hw : 0 <= exact w)
    (Hfin : Forall finite_reading (p ++ [tk]))
    (Hts : chronological (p ++ [tk])) :
  let r := run (p ++ [tk]) (__init__ K w) in
  _request_times (snd r)
    = filter (within tk w) (admitted_times (p ++ [tk]) (fst r)).
Proof.
  cbv zeta.
  assert (Htk : finite_reading tk).
  { apply Forall_app in Hfin as [_ Htk]. inversion Htk; assumption. }
  destruct (history_at_last K p tk Hwf Hw Hfin Hts)
    as (_ & _ & Hadmfin & _ & _ & dropped & Hadm & Hdropped & Hfresh).
  rewrite Hadm in Hadmfin. apply Forall_app in Hadmfin as [Hdfin Hlfin].
  rewrite Hadm, filter_app.
  rewrite filter_none, filter_all; [reflexivity| |].
  - rewrite Forall_forall in *. intros e He.
    rewrite within_not_expired by auto. rewrite Hfresh by exact He. reflexivity.
  - rewrite Forall_forall in *. intros e He.
    rewrite within_not_expired by auto. rewrite Hdropped by exact He. reflexivity.
Qed.

Lemma log_holds_the_recent_admissions_witness :
  _request_times (snd (run [0; 0.5; 0.7; 1.2; 1.6]%float (__init__ 2 1%float)))
    = filter (within 1.6 1)
        (admitted_times [0; 0.5; 0.7; 1.2; 1.6]%float
           (fst (run [0; 0.5; 0.7; 1.2; 1.6]%float (__init__ 2 1%float)))).
Proof.
  exact (@log_holds_the_recent_admissions 2%Z 1%float [0; 0.5; 0.7; 1.2]%float
           1.6%float
           ltac:(reflexivity) ltac:(vm_compute; discriminate)
           ltac:(repeat constructor)
           ltac:(repeat constructor; vm_compute; discriminate)).
Defined.

(** X3.  A call at [tk] is rejected exactly when [max_requests] or more of
    the calls admitted before it have [tk - t <= window_seconds] in
    binary64 arithmetic.  So nothing is rejected while the window has room,
    and nothing is admitted once it is full. *)
Theorem rejection_counts_recent_admissions (K : Z) (w : float) (p : list float)
    (tk : float)
    (Hwf : finite_reading w)
    (Hw : 0 <= exact w)
    (Hfin : Forall finite_reading (p ++ [tk]))
    (Hts : chronological (p ++ [tk])) :
  let r := run p (__init__ K w) in
  fst (admit_at tk (snd r)) = REJECTED
  <-> (K <= Z.of_nat (count (within tk w) (admitted_times p (fst r))))%Z.
Proof.
  cbv zeta.
  pose proof Hfin as Hfin'. apply Forall_app in Hfin' as [Hpfin Htk].
  apply Forall_cons_iff in Htk as [Htk _].
  destruct (@history_reached K w p tk Hwf Hw Htk Hpfin
              (chronological_prefix _ _ Hts) (chronological_last _ _ Hts))
    as (t & Ht & Httk & Hinv).
  pose proof (history_inv_log_sorted Hinv) as Hlog.
  pose proof (history_inv_log_finite Hinv) as Hlogfin.
  destruct Hinv as (HK & Hwin & Hadmfin & _ & _ & dropped & Hadm & Hdropped & _).
  assert (Hdfin : Forall finite_reading dropped).
  { rewrite Hadm in Hadmfin. apply Forall_app in Hadmfin. tauto. }
  assert (Hcount : count (within tk w)
                     (admitted_times p (fst (run p (__init__ K w))))
                   = length (purge tk w
                       (_request_times (snd (run p (__init__ K w)))))).
  { unfold count. rewrite Hadm, filter_app, filter_none.
    - cbn [app]. rewrite purge_sorted_filter by assumption. f_equal.
      apply filter_ext_in. intros e He. apply within_not_expired; try assumption.
      rewrite Forall_forall in Hlogfin. auto.
    - rewrite Forall_forall in *. intros e He.
      rewrite within_not_expired by auto.
      rewrite (@expired_later t tk w e) by auto. reflexivity. }
  rewrite Hcount, admit_eq. cbv zeta. rewrite HK, Hwin.
  destruct (Z.geb_spec
              (Z.of_nat (length (purge tk w
                 (_request_times (snd (run p (__init__ K w))))))) K);
    cbn [fst]; split; intros; try lia; try reflexivity; discriminate.
Qed.

Lemma rejection_counts_recent_admissions_witness :
  fst (admit_at 1%float (snd (run [0; 0.5; 0.7]%float (__init__ 2 1%float))))
    = REJECTED.
Proof.
  apply (@rejection_counts_recent_admissions 2%Z 1%float [0; 0.5; 0.7]%float
           1%float
           ltac:(reflexivity) ltac:(vm_compute; discriminate)
           ltac:(repeat constructor)
           ltac:(repeat constructor; vm_compute; discriminate)).
  vm_compute. discriminate.
Defined.

(** ** The rate that gets through *)

Lemma spaced_step K w t t' m admitted :
  finite_reading w -> finite_reading t -> finite_reading t' ->
  history_inv K w t m admitted -> exact t <= exact t' ->
  spaced (Z.to_nat K) w admitted ->
  fst (admit_at t' m) = ADMITTED ->
  spaced (Z.to_nat K) w (admitted ++ [t']).
Proof.
  intros Hwf Ht Ht' (HK & Hwin & Hfin & _ & _ & dropped & Hadm & Hdropped & _)
    Htt Hsp Hd.
  rewrite admit_eq in Hd. cbv zeta in Hd. rewrite HK, Hwin in Hd.
  destruct (Z.geb_spec (Z.of_nat (length (purge t' w (_request_times m)))) K)
    as [Hge|Hlt]; [discriminate|]. clear Hd.
  destruct (purge_split t' w (_request_times m)) as (gone & Hsplit & Hgone).
  pose proof (history_inv_dropped m Hwf Ht Ht' Hfin Htt Hadm Hdropped Hgone)
    as Hall.
  assert (Hlen : (length admitted
                  = length (dropped ++ gone)
                    + length (purge t' w (_request_times m)))%nat).
  { rewrite Hadm, Hsplit at 1. rewrite !length_app. lia. }
  intros i x y Hx Hy.
  destruct (Nat.lt_ge_cases (i + Z.to_nat K) (length admitted)) as [Hin|Hout].
  - rewrite nth_error_app1 in Hx by lia.
    rewrite nth_error_app1 in Hy by lia.
    eapply Hsp; eassumption.
  - rewrite nth_error_app2 in Hy by lia.
    destruct (i + Z.to_nat K - length admitted)%nat as [|n] eqn:Hk;
      [|destruct n; discriminate].
    cbn [nth_error] in Hy. inversion Hy; subst y.
    assert (Hi : (i < length (dropped ++ gone))%nat) by lia.
    rewrite nth_error_app1 in Hx by lia.
    assert (Hxfin : finite_reading x).
    { rewrite Forall_forall in Hfin. apply Hfin.
      eapply nth_error_In. exact Hx. }
    rewrite Hadm, Hsplit, app_assoc in Hx.
    rewrite nth_error_app1 in Hx by exact Hi.
    apply nth_error_In in Hx.
    rewrite Forall_forall in Hall.
    apply expired_exact; auto.
Qed.

Lemma spaced_run K w ts :
  finite_reading w -> 0 <= exact w ->
  forall t m admitted,
    finite_reading t ->
    history_inv K w t m admitted ->
    spaced (Z.to_nat K) w admitted ->
    Forall finite_reading ts ->
    chronological (t :: ts) ->
    spaced (Z.to_nat K) w (admitted ++ admitted_times ts (fst (run ts m))).
Proof.
  intros Hwf Hw.
  induction ts as [|t' ts IH]; intros t m admitted Ht Hinv Hsp Hfin Hsorted.
  - cbn [run fst admitted_times]. rewrite app_nil_r. exact Hsp.
  - apply Sorted_inv in Hsorted as [Hsorted Hhd].
    apply HdRel_inv in Hhd.
    apply Forall_cons_iff in Hfin as [Ht' Hfin].
    pose proof (history_inv_step Hwf Ht Ht' Hw Hinv Hhd) as Hstep.
    pose proof (spaced_step Hwf Ht Ht' Hinv Hhd Hsp) as Hsp'.
    specialize (IH t' (snd (admit_at t' m))).
    cbn [run].
    destruct (admit_at t' m) as [d m1]. cbn [fst snd] in *.
    destruct (run ts m1) as [ds m2] eqn:Hrun. cbn [fst snd] in *.
    destruct d; cbn [admitted_times].
    + specialize (IH _ Ht' Hstep (Hsp' eq_refl) Hfin Hsorted).
      rewrite <- app_assoc in IH. exact IH.
    + rewrite app_nil_r in Hstep. exact (IH _ Ht' Hstep Hsp Hfin Hsorted).
Qed.

(** X4.  Of the calls admitted, any [max_requests + 1] consecutive ones span
    more than [window_seconds]: if [x] was admitted and [y] is the
    [max_requests]-th admission after it, then [y - x > window_seconds], in
    exact arithmetic. *)
Theorem admissions_are_spaced (K : Z) (w : float) (ts : list float)
    (Hwf : finite_reading w)
    (Hw : 0 <= exact w)
    (Hfin : Forall finite_reading ts)
    (Hts : chronological ts) :
  let admitted := admitted_times ts (fst (run ts (__init__ K w))) in
  forall i x y,
    nth_error admitted i = Some x ->
    nth_error admitted (i + Z.to_nat K) = Some y ->
    exact w < exact y - exact x.
Proof.
  cbv zeta. destruct ts as [|t1 ts1].
  - intros [|i] x y Hx; discriminate Hx.
  - assert (Hs : chronological (t1 :: t1 :: ts1)).
    { constructor; [exact Hts|]. constructor. apply Qle_refl. }
    assert (Hsp0 : spaced (Z.to_nat K) w []).
    { intros [|i] x y Hx; discriminate Hx. }
    assert (Ht1 : finite_reading t1) by (inversion Hfin; assumption).
    exact (spaced_run Hwf Hw Ht1 (history_inv_init K w t1) Hsp0 Hfin Hs).
Qed.

Lemma admissions_are_spaced_witness :
  let admitted := admitted_times [0; 0.2; 0.4; 1.1; 1.15; 1.3]%float
                    (fst (run [0; 0.2; 0.4; 1.1; 1.15; 1.3]%float
                            (__init__ 2 1%float))) in
  nth_error admitted 1 = Some 0.2%float
  /\ nth_error admitted 3 = Some 1.3%float
  /\ exact 1 < exact 1.3 - exact 0.2.
Proof.
  intros admitted.
  split; [reflexivity|]. split; [reflexivity|].
  exact (@admissions_are_spaced 2%Z 1%float [0; 0.2; 0.4; 1.1; 1.15; 1.3]%float
           ltac:(reflexivity) ltac:(vm_compute; discriminate)
           ltac:(repeat constructor)
           ltac:(repeat constructor; vm_compute; discriminate)
           1%nat 0.2%float 1.3%float eq_refl eq_refl).
Defined.

(** ** Settings at the edge *)

(** X5.  With [max_requests] zero or negative every call is rejected,
    whatever the timestamps, and the object never changes. *)
Theorem nonpositive_limit_rejects_everything (K : Z) (w : Q) (ts : list Q)
    (HK : (K <= 0)%Z) :
  run ts (__init__ K w) = (repeat REJECTED (length ts), __init__ K w).
Proof.
  induction ts as [|t ts IH]; [reflexivity|].
  cbn [run length repeat].
  assert (Hrej : admit_at t (__init__ K w) = (REJECTED, __init__ K w)).
  { rewrite admit_eq. cbv zeta.
    cbn [__init__ max_requests window_seconds _request_times purge length].
    destruct (Z.geb_spec (Z.of_nat 0) K); [reflexivity|lia]. }
  rewrite Hrej, IH. reflexivity.
Qed.

Lemma nonpositive_limit_rejects_everything_witness :
  run [0; 5; 2] (__init__ 0 1) = ([REJECTED; REJECTED; REJECTED], __init__ 0 1).
Proof.
  exact (@nonpositive_limit_rejects_everything 0%Z 1%Q [0; 5; 2]%Q ltac:(lia)).
Defined.

Lemma negative_window_run (K : Z) (w : Q) (ts : list Q) :
  w < 0 -> (1 <= K)%Z ->
  forall t (m : RateLimiterMiddleware Q),
    max_requests m = K -> window_seconds m = w ->
    Forall (fun e => e <= t) (_request_times m) ->
    nondecreasing (t :: ts) ->
    fst (run ts m) = repeat ADMITTED (length ts)
    /\ (ts <> [] -> length (_request_times (snd (run ts m))) = 1%nat).
Proof.
  intros Hw HK.
  induction ts as [|t' ts IH]; intros t m HmK Hmw Hle Hsorted.
  - cbn [run fst snd]. split; [reflexivity|congruence].
  - apply Sorted_inv in Hsorted as [Hsorted Hhd].
    apply HdRel_inv in Hhd.
    assert (Hgone : purge t' w (_request_times m) = []).
    { apply purge_all_expired.
      eapply Forall_impl; [|exact Hle]. cbv beta. intros e He.
      apply expired_true_iff. lra. }
    assert (Hadm : admit_at t' m = (ADMITTED, with_log m [t'])).
    { rewrite admit_eq. cbv zeta. rewrite HmK, Hmw, Hgone. cbn [length app].
      destruct (Z.geb_spec (Z.of_nat 0) K); [lia|reflexivity]. }
    cbn [run]. rewrite Hadm.
    specialize (IH t' (with_log m [t']) HmK Hmw).
    cbn [with_log _request_times] in IH.
    destruct IH as [Hds Hlen];
      [constructor; [apply Qle_refl|constructor]|exact Hsorted|].
    destruct ts as [|t2 ts2].
    + cbn [run fst snd with_log _request_times length repeat].
      split; reflexivity.
    + destruct (run (t2 :: ts2) (with_log m [t'])) as [ds m2].
      cbn [fst snd] in *.
      split; [cbn [length repeat] in *; rewrite Hds; reflexivity|].
      intros _. apply Hlen. discriminate.
Qed.

(** X6.  With a negative [window_seconds] and [max_requests >= 1] the limiter
    limits nothing: as long as the clock does not go back every call is
    admitted, and the log never holds more than one entry. *)
Theorem negative_window_admits_everything (K : Z) (w : Q) (ts : list Q)
    (Hw : w < 0)
    (HK : (1 <= K)%Z)
    (Hts : nondecreasing ts) :
  fst (run ts (__init__ K w)) = repeat ADMITTED (length ts)
  /\ (length (_request_times (snd (run ts (__init__ K w)))) <= 1)%nat.
Proof.
  destruct ts as [|t1 ts1]; [split; [reflexivity|cbn; lia]|].
  assert (Hs : nondecreasing (t1 :: t1 :: ts1)).
  { constructor; [exact Hts|]. constructor. apply Qle_refl. }
  destruct (@negative_window_run K w (t1 :: ts1) Hw HK t1 (__init__ K w)
              eq_refl eq_refl ltac:(constructor) Hs) as [Hds Hlen].
  split; [exact Hds|].
  rewrite Hlen by discriminate. lia.
Qed.

Lemma negative_window_admits_everything_witness :
  fst (run [0; 0; 0; 0.1] (__init__ 1 (-1)))
    = [ADMITTED; ADMITTED; ADMITTED; ADMITTED].
Proof.
  exact (proj1 (@negative_window_admits_everything 1%Z (-1)%Q [0; 0; 0; 0.1]%Q
                  ltac:(reflexivity) ltac:(lia)
                  ltac:(repeat constructor; discriminate))).
Defined.

(** * The API key *)

(** X7.  [verify_api_key] lets a request through exactly when [API_KEY] is
    set and the [x-api-key] header is present and equal to it.  If
    [API_KEY] is not set the answer is status 500 whatever the header; in
    every other case it is status 401. *)
Theorem api_key_is_required (environ : string -> option string)
    (x_api_key : option string) :
  (verify_api_key environ x_api_key = inr tt
   <-> exists key, environ "API_KEY"%string = Some key /\ x_api_key = Some key)
  /\ (verify_api_key environ x_api_key
        = inl (HTTPException 500 "Server misconfigured: API_KEY not set")
      <-> environ "API_KEY"%string = None)
  /\ (verify_api_key environ x_api_key = inl (HTTPException 401 "Invalid API key")
      <-> exists key, environ "API_KEY"%string = Some key /\ x_api_key <> Some key).
Proof.
  unfold verify_api_key.
  destruct (environ "API_KEY"%string) as [expected|].
  - destruct x_api_key as [key|].
    + destruct (String.eqb_spec key expected) as [->|Hne]; cbn [negb].
      * split; [|split]; split; try discriminate; try reflexivity.
        -- intros _. exists expected. split; reflexivity.
        -- intros (k & Hk & Hne). inversion Hk; subst. congruence.
      * split; [|split]; split; try discriminate; try reflexivity.
        -- intros (k & Hk & Heq). inversion Hk; inversion Heq; subst.
           congruence.
        -- intros _. exists expected. split; [reflexivity|congruence].
    + split; [|split]; split; try discriminate; try reflexivity.
      * intros (k & _ & Heq). discriminate.
      * intros _. exists expected. split; [reflexivity|discriminate].
  - split; [|split]; split; try discriminate; try reflexivity.
    + intros (k & Hk & _). discriminate.
    + intros (k & Hk & _). discriminate.
Qed.

(** * The store client *)

Section SupabaseFacts.

Variable environ : string -> option string.
Variable quote : string -> string.
Variable R : Type.
Variable Response : Type.
Variable transport : Request -> R -> (error + Response) * R.
Variable status_error : Response -> option error.
Variable json_rows : Response -> error + list row.

Lemma base_url_unset (n : Net R) :
  falsy (environ "SUPABASE_URL"%string) = true ->
  base_url_or_raise environ n
    = Failed (RuntimeError "SUPABASE_URL environment variable not set") n.
Proof.
  unfold base_url_or_raise.
  destruct (environ "SUPABASE_URL"%string) as [u|]; [|reflexivity].
  intros ->. reflexivity.
Qed.

Lemma base_url_set (n : Net R) :
  falsy (environ "SUPABASE_URL"%string) = false ->
  exists base,
    environ "SUPABASE_URL"%string = Some base
    /\ base_url_or_raise environ n = Done base n.
Proof.
  unfold base_url_or_raise.
  destruct (environ "SUPABASE_URL"%string) as [u|]; [|discriminate].
  intros Hf. exists u. rewrite Hf. split; reflexivity.
Qed.

Lemma build_headers_unset (n : Net R) :
  falsy (environ "SUPABASE_KEY"%string) = true ->
  _build_headers environ n
    = Failed (RuntimeError "SUPABASE_KEY environment variable not set") n.
Proof.
  unfold _build_headers.
  destruct (environ "SUPABASE_KEY"%string) as [k|]; [|reflexivity].
  intros ->. reflexivity.
Qed.

Lemma build_headers_set (n : Net R) :
  falsy (environ "SUPABASE_KEY"%string) = false ->
  exists key,
    environ "SUPABASE_KEY"%string = Some key
    /\ _build_headers environ n
       = Done [("apikey", key); ("Authorization", "Bearer " ++ key);
               ("Content-Type", "application/json")]%string n.
Proof.
  unfold _build_headers.
  destruct (environ "SUPABASE_KEY"%string) as [k|]; [|discriminate].
  intros Hf. exists k. rewrite Hf. split; reflexivity.
Qed.

End SupabaseFacts.

(** X8.  Without [SUPABASE_URL] or without [SUPABASE_KEY] (unset, or set to
    the empty string) each of the four store functions raises
    [RuntimeError] and hands nothing to the HTTP client. *)
Theorem store_calls_need_configuration
    (environ : string -> option string) (quote : string -> string)
    (R Response : Type)
    (transport : Request -> R -> (error + Response) * R)
    (status_error : Response -> option error)
    (json_rows : Response -> error + list row)
    (n : Net R)
    (Hconf : falsy (environ "SUPABASE_URL"%string) = true
             \/ falsy (environ "SUPABASE_KEY"%string) = true) :
  (forall q order limit offset, exists message,
      list_companies environ quote transport status_error json_rows
        q order limit offset n = Failed (RuntimeError message) n)
  /\ (forall company_id, exists message,
        fetch_company environ transport status_error json_rows company_id n
          = Failed (RuntimeError message) n)
  /\ (forall company_id score reason, exists message,
        update_company environ transport status_error json_rows
          company_id score reason n = Failed (RuntimeError message) n)
  /\ (forall company_id fields, exists message,
        update_company_fields environ transport status_error json_rows
          company_id fields n = Failed (RuntimeError message) n).
Proof.
  destruct (falsy (environ "SUPABASE_URL"%string)) eqn:Hurl.
  - pose proof (base_url_unset environ n Hurl) as Hb.
    repeat split; intros;
      unfold list_companies, fetch_company, update_company,
        update_company_fields, io_bind; rewrite Hb; eexists; reflexivity.
  - destruct Hconf as [Hc|Hkey]; [discriminate|].
    destruct (base_url_set environ n Hurl) as (base & _ & Hb).
    pose proof (build_headers_unset environ n Hkey) as Hh.
    repeat split; intros;
      unfold list_companies, fetch_company, update_company,
        update_company_fields, io_bind; rewrite Hb;
      try (match goal with
           | |- context [let (_, _) := ?parsed in _] => destruct parsed as [? ?]
           end);
      cbv zeta; rewrite Hh; eexists; reflexivity.
Qed.

Lemma store_calls_need_configuration_witness :
  let environ := fun name : string =>
    if String.eqb name "SUPABASE_URL" then Some "https://db.example"%string
    else None in
  let transport := fun (req : Request) (r : nat) =>
    (inr 200%Z : error + Z, S r) in
  let n := {| remote := 0%nat; sent := [] |} in
  exists message,
    update_company environ transport (fun _ => None) (fun _ => inr [])
      "c1" 80 "fair" n = Failed (RuntimeError message) n.
Proof.
  intros environ transport n.
  exact (proj1 (proj2 (proj2
    (@store_calls_need_configuration environ (fun s => s) nat Z transport
       (fun _ => None) (fun _ => inr []) n (or_intror eq_refl))))
    "c1"%string 80%Z "fair"%string).
Defined.

Ltac store_call_cases transport status_error json_rows :=
  match goal with
  | |- context [transport ?req ?r] =>
      let resp := fresh "resp" in
      destruct (transport req r) as [[?|resp] ?];
      [|unfold raise_for_status, json, first_row, io_raise, io_ret;
        destruct (status_error resp);
        [|destruct (json_rows resp) as [?|[|? ?]]]]
  end.

(** X9.  A call of any of the four store functions ends having handed at
    most one request to the HTTP client.  That request goes to
    [<SUPABASE_URL>/rest/v1/companies] and carries the service key in the
    [apikey] header and, after [Bearer ], in [Authorization]; in
    [list_companies] the [Range] header added to them replaces none of
    them. *)
Theorem store_requests_carry_the_key
    (environ : string -> option string) (quote : string -> string)
    (R Response : Type)
    (transport : Request -> R -> (error + Response) * R)
    (status_error : Response -> option error)
    (json_rows : Response -> error + list row)
    (base key : string) (n : Net R)
    (Hurl : environ "SUPABASE_URL"%string = Some base)
    (Hkey : environ "SUPABASE_KEY"%string = Some key) :
  (forall q order limit offset,
      one_request_at_most base key n
        (list_companies environ quote transport status_error json_rows
           q order limit offset n))
  /\ (forall company_id,
        one_request_at_most base key n
          (fetch_company environ transport status_error json_rows company_id n))
  /\ (forall company_id score reason,
        one_request_at_most base key n
          (update_company environ transport status_error json_rows
             company_id score reason n))
  /\ (forall company_id fields,
        one_request_at_most base key n
          (update_company_fields environ transport status_error json_rows
             company_id fields n)).
Proof.
  assert (Hsent : forall req : Request,
            to_companies_table base key req ->
            forall r' : R,
              sent {| remote := r'; sent := sent n ++ [req] |} = sent n
              \/ exists req', sent {| remote := r'; sent := sent n ++ [req] |}
                                = sent n ++ [req']
                              /\ to_companies_table base key req').
  { intros req Hreq r'. right. exists req. split; [reflexivity|exact Hreq]. }
  repeat split; intros;
    unfold one_request_at_most, list_companies, fetch_company, update_company,
      update_company_fields, io_bind, base_url_or_raise, _build_headers;
    rewrite Hurl, Hkey;
    (destruct (falsy (Some base)); [left; reflexivity|]);
    unfold io_ret;
    try (match goal with
           | |- context [let (_, _) := ?parsed in _] => destruct parsed as [? ?]
           end);
    cbv zeta;
    (destruct (falsy (Some key)); [left; reflexivity|]);
    unfold client_request; cbn [remote sent];
    store_call_cases transport status_error json_rows;
    cbn [final_state]; apply Hsent; repeat split; reflexivity.
Qed.

Lemma store_requests_carry_the_key_witness :
  let environ := fun name : string =>
    if String.eqb name "SUPABASE_URL" then Some "https://db.example"%string
    else if String.eqb name "SUPABASE_KEY" then Some "s3cret"%string
    else None in
  let transport := fun (req : Request) (r : nat) =>
    (inr 200%Z : error + Z, S r) in
  let n := {| remote := 0%nat; sent := [] |} in
  one_request_at_most "https://db.example" "s3cret" n
    (list_companies environ (fun s => s) transport (fun _ => None)
       (fun _ => inr []) (Some "acme"%string) "-ethics_score" 50 0 n).
Proof.
  intros environ transport n.
  exact (proj1
    (@store_requests_carry_the_key environ (fun s => s) nat Z transport
       (fun _ => None) (fun _ => inr []) "https://db.example" "s3cret" n
       eq_refl eq_refl)
    (Some "acme"%string) "-ethics_score"%string 50%Z 0%Z).
Defined.

(** X10.  When the store answers with an empty list of rows (no company has
    that id) [fetch_company] returns [None], while [update_company] and
    [update_company_fields], the request already made, raise
    [IndexError]. *)
Theorem no_such_company
    (environ : string -> option string)
    (R Response : Type)
    (transport : Request -> R -> (error + Response) * R)
    (status_error : Response -> option error)
    (json_rows : Response -> error + list row)
    (n : Net R) (company_id : string)
    (Hurl : falsy (environ "SUPABASE_URL"%string) = false)
    (Hkey : falsy (environ "SUPABASE_KEY"%string) = false)
    (Hempty : forall req, exists resp r',
        transport req (remote n) = (inr resp, r')
        /\ status_error resp = None
        /\ json_rows resp = inr []) :
  (exists n', fetch_company environ transport status_error json_rows
                company_id n = Done None n')
  /\ (forall score reason, exists req r',
        update_company environ transport status_error json_rows
          company_id score reason n
        = Failed (Exn IndexError) {| remote := r'; sent := sent n ++ [req] |}
        /\ method req = "PATCH"%string)
  /\ (forall fields, exists req r',
        update_company_fields environ transport status_error json_rows
          company_id fields n
        = Failed (Exn IndexError) {| remote := r'; sent := sent n ++ [req] |}
        /\ method req = "PATCH"%string).
Proof.
  destruct (base_url_set environ n Hurl) as (base & _ & Hb).
  destruct (build_headers_set environ n Hkey) as (key & _ & Hh).
  repeat split; intros;
    unfold fetch_company, update_company, update_company_fields, io_bind;
    rewrite Hb; cbv zeta; rewrite Hh; unfold client_request;
    match goal with
    | |- context [transport ?req (remote n)] =>
        destruct (Hempty req) as (resp & r' & -> & Hs & Hj)
    end;
    unfold raise_for_status, json; rewrite Hs, Hj;
    unfold io_ret, first_row, io_raise.
  - eexists. reflexivity.
  - eexists. eexists. split; reflexivity.
  - eexists. eexists. split; reflexivity.
Qed.

Lemma no_such_company_witness :
  let environ := fun name : string =>
    if String.eqb name "SUPABASE_URL" then Some "https://db.example"%string
    else if String.eqb name "SUPABASE_KEY" then Some "s3cret"%string
    else None in
  let transport := fun (req : Request) (r : nat) =>
    (inr 200%Z : error + Z, r) in
  let n := {| remote := 0%nat; sent := [] |} in
  exists n', fetch_company environ transport (fun _ => None) (fun _ => inr [])
               "c9" n = Done None n'.
Proof.
  intros environ transport n.
  refine (proj1 (@no_such_company environ nat Z transport (fun _ => None)
                   (fun _ => inr []) n "c9"%string eq_refl eq_refl _)).
  intros req. exists 200%Z. exists 0%nat. repeat split; reflexivity.
Defined.

(** * The rescoring job *)

Lemma count_app {A} (p : A -> bool) (a b : list A) :
  count p (a ++ b) = (count p a + count p b)%nat.
Proof. unfold count. rewrite filter_app, length_app. reflexivity. Qed.

Lemma rows_listed_app (a b : list event) :
  rows_listed (a ++ b) = (rows_listed a + rows_listed b)%nat.
Proof. unfold rows_listed. rewrite map_app, list_sum_app. reflexivity. Qed.

Lemma list_calls_app (a b : list event) :
  list_calls (a ++ b) = list_calls a ++ list_calls b.
Proof. unfold list_calls. apply flat_map_app. Qed.

Lemma list_results_app (a b : list event) :
  list_results (a ++ b) = list_results a ++ list_results b.
Proof. unfold list_results. apply flat_map_app. Qed.

Section ScoreAllFacts.

Variable W : Type.
Variable lc : option string -> string -> Z -> Z -> IO W (list row).
Variable sc : value -> IO W (Z * string).
Variable uc : value -> Z -> string -> IO W row.
Variable se : error -> string.

Lemma rescore_outcome (company : row) (total : Z) (h : Host W) :
  match rescore sc uc se company total h with
  | Done t h' => companies_done 1 total h t h'
  | Failed e h' => e = KeyError "id" \/ is_Exception e = false
  | Diverged => True
  end.
Proof.
  unfold rescore, subscript, io_bind at 1.
  destruct (dict_get "id" company) as [company_id|];
    [|left; reflexivity].
  unfold io_ret at 1, try_except, io_bind, noted.
  destruct (sc company_id (world h)) as [[score_val reason] w1|e w1|];
    cbn [world stdout calls]; [| |exact I].
  - destruct (uc company_id score_val reason w1) as [r w2|e w2|];
      cbn [world stdout calls]; [| |exact I].
    + unfold io_ret.
      exists [ScoreCompany company_id (Some (score_val, reason));
              UpdateCompany company_id score_val reason (Some r)], [].
      cbn [calls stdout]. rewrite <- app_assoc, app_nil_r.
      repeat split; reflexivity.
    + destruct (is_Exception e) eqn:He; [|right; exact He].
      unfold print, io_ret. cbn [world stdout calls].
      exists [ScoreCompany company_id (Some (score_val, reason));
              UpdateCompany company_id score_val reason None],
             [("Error rescoring " ++ str_value company_id ++ ": " ++ se e)%string].
      cbn [calls stdout]. rewrite <- app_assoc.
      repeat split; try reflexivity. cbn. lia.
  - destruct (is_Exception e) eqn:He; [|right; exact He].
    unfold print, io_ret. cbn [world stdout calls].
    exists [ScoreCompany company_id None],
           [("Error rescoring " ++ str_value company_id ++ ": " ++ se e)%string].
    cbn [calls stdout].
    repeat split; try reflexivity. cbn. lia.
Qed.

End ScoreAllFacts.

Section ScoreAllLoop.

Variable W : Type.
Variable lc : option string -> string -> Z -> Z -> IO W (list row).
Variable sc : value -> IO W (Z * string).
Variable uc : value -> Z -> string -> IO W row.
Variable se : error -> string.

Lemma companies_done_nil (total : Z) (h : Host W) :
  companies_done 0 total h total h.
Proof.
  exists [], []. rewrite !app_nil_r.
  repeat split; try reflexivity. cbn. lia.
Qed.

Lemma companies_done_trans a b total (h : Host W) t1 h1 t2 h2 :
  companies_done a total h t1 h1 ->
  companies_done b t1 h1 t2 h2 ->
  companies_done (a + b) total h t2 h2.
Proof.
  intros (n1 & l1 & Hc1 & Ho1 & Hs1 & Hr1 & Hl1 & Hp1 & Ht1 & Hk1)
         (n2 & l2 & Hc2 & Ho2 & Hs2 & Hr2 & Hl2 & Hp2 & Ht2 & Hk2).
  exists (n1 ++ n2), (l1 ++ l2).
  rewrite Hc2, Hc1, Ho2, Ho1, <- !app_assoc.
  rewrite !count_app, rows_listed_app, list_calls_app, list_results_app.
  rewrite Hl1, Hl2, Hp1, Hp2, Hr1, Hr2, Hs1, Hs2, length_app.
  repeat split; try reflexivity; lia.
Qed.

Lemma for_companies_outcome (companies : list row) :
  forall (total : Z) (h : Host W),
    match for_companies sc uc se companies total h with
    | Done t h' => companies_done (length companies) total h t h'
    | Failed e h' => e = KeyError "id" \/ is_Exception e = false
    | Diverged => True
    end.
Proof.
  induction companies as [|company rest IH]; intros total h.
  - cbn [for_companies]. unfold io_ret. apply companies_done_nil.
  - cbn [for_companies]. unfold io_bind.
    pose proof (rescore_outcome sc uc se company total h) as Hone.
    destruct (rescore sc uc se company total h) as [t1 h1|e h1|];
      [|exact Hone|exact I].
    specialize (IH t1 h1).
    destruct (for_companies sc uc se rest t1 h1) as [t2 h2|e h2|];
      [|exact IH|exact I].
    exact (companies_done_trans Hone IH).
Qed.

Lemma score_all_loop_outcome (fuel : nat) :
  forall (offset total : Z) (h : Host W),
    match score_all_loop lc sc uc se fuel offset total h with
    | Done t h' => job_done offset total h t h'
    | Failed e h' => job_failure e h'
    | Diverged => True
    end.
Proof.
  induction fuel as [|fuel IH]; intros offset total h; [exact I|].
  cbn [score_all_loop]. unfold io_bind at 1. unfold noted.
  destruct (lc None "-ethics_score"%string batch_size offset (world h))
    as [companies w1|e w1|]; [| |exact I].
  - destruct companies as [|company rest].
    + unfold io_ret. cbn [calls stdout].
      exists [ListCompanies None "-ethics_score" batch_size offset (Some [])],
             [], [].
      cbn [calls stdout]. rewrite app_nil_r.
      repeat split; try reflexivity.
      * cbn. repeat f_equal. unfold batch_size. lia.
      * constructor.
      * cbn. lia.
    + unfold io_bind.
      set (h1 := {| world := w1; stdout := stdout h;
                    calls := calls h ++
                      [ListCompanies None "-ethics_score" batch_size offset
                         (Some (company :: rest))] |}).
      pose proof (for_companies_outcome (company :: rest) total h1) as Hfor.
      destruct (for_companies sc uc se (company :: rest) total h1)
        as [t1 h2|e h2|];
        [|destruct Hfor as [Hfor|Hfor]; [left|right; left]; exact Hfor
         |exact I].
      specialize (IH (offset + batch_size)%Z t1 h2).
      destruct (score_all_loop lc sc uc se fuel (offset + batch_size)%Z t1 h2)
        as [t2 h3|e h3|]; [|exact IH|exact I].
      destruct Hfor as (n1 & l1 & Hc1 & Ho1 & Hs1 & Hr1 & Hl1 & Hp1 & Ht1 & Hk1).
      destruct IH as (n2 & l2 & pages & Hc2 & Ho2 & Hl2 & Hp2 & Hne & Hs2 & Ht2 & Hk2).
      exists ([ListCompanies None "-ethics_score" batch_size offset
                 (Some (company :: rest))] ++ n1 ++ n2),
             (l1 ++ l2), ((company :: rest) :: pages).
      rewrite Hc2, Hc1, Ho2, Ho1. subst h1. cbn [calls stdout].
      rewrite <- !app_assoc.
      rewrite !count_app, !rows_listed_app, !list_calls_app, !list_results_app.
      rewrite Hl1, Hl2, Hp1, Hp2, length_app.
      set (listing := ListCompanies None "-ethics_score" batch_size offset
                        (Some (company :: rest))) in *.
      assert (Hscore : count is_score_call [listing] = 0%nat) by reflexivity.
      assert (Hupd : count is_update_done [listing] = 0%nat) by reflexivity.
      assert (Hrows : rows_listed [listing] = length (company :: rest))
        by (unfold rows_listed; cbn; lia).
      repeat split; try reflexivity; try lia.
      * change (seq 0 (S (length ((company :: rest) :: pages))))
          with (0%nat :: seq 1 (S (length pages))).
        rewrite <- seq_shift.
        cbn [list_calls flat_map list_call_args listing app map].
        rewrite map_map. unfold batch_size. f_equal.
        -- f_equal. lia.
        -- apply map_ext. intros k. f_equal. lia.
      * constructor; [discriminate|exact Hne].
  - right. right. cbn [calls].
    exists (calls h), None, "-ethics_score"%string, batch_size, offset.
    reflexivity.
Qed.

End ScoreAllLoop.



(** X12.  The job asks for the pages in order: offsets 0, 200, 400, ...,
    200 rows each, no search text, ordered by [-ethics_score]; every page
    but the last came back non-empty, and the job stops at the first empty
    one. *)
Theorem rescoring_job_pages (W : Type)
    (lc : option string -> string -> Z -> Z -> IO W (list row))
    (sc : value -> IO W (Z * string))
    (uc : value -> Z -> string -> IO W row)
    (se : error -> string)
    (fuel : nat) (h h' : Host W) (result : dict Z)
    (Hdone : score_all lc sc uc se fuel h = Done result h') :
  exists new pages,
    calls h' = calls h ++ new
    /\ list_calls new
       = map (fun k => (None, "-ethics_score"%string, 200%Z, (200 * Z.of_nat k)%Z))
             (seq 0 (S (length pages)))
    /\ list_results new = map Some pages ++ [Some []]
    /\ Forall (fun page => page <> []) pages.
Proof.
  unfold score_all, io_bind in Hdone.
  pose proof (score_all_loop_outcome lc sc uc se fuel 0 0 h) as Hloop.
  destruct (score_all_loop lc sc uc se fuel 0 0 h) as [t h1|e h1|];
    try discriminate.
  unfold io_ret in Hdone. inversion Hdone; subst.
  destruct Hloop as (new & lines & pages & Hc & _ & Hl & Hp & Hne & _).
  exists new, pages. repeat split; assumption.
Qed.

Lemma rescoring_job_pages_witness :
  let lc := fun (q : option string) (order : string) (limit offset : Z) (w : unit) =>
    if (offset <? 400)%Z
    then Done [[("id", VInt offset)]]%string w
    else Done [] w in
  let sc := fun (company_id : value) (w : unit) => Done (50%Z, "fair"%string) w in
  let uc := fun (company_id : value) (score : Z) (reason : string) (w : unit) =>
    Done [("id", company_id)]%string w in
  let se := fun _ : error => "error"%string in
  let h := {| world := tt; stdout := []; calls := [] |} in
  let o := score_all lc sc uc se 5 h in
  let h' := match o with Done _ s => s | _ => h end in
  list_calls (calls h')
    = [(None, "-ethics_score"%string, 200%Z, 0%Z);
       (None, "-ethics_score"%string, 200%Z, 200%Z);
       (None, "-ethics_score"%string, 200%Z, 400%Z)]
  /\ exists new pages,
       calls h' = calls h ++ new
       /\ list_calls new
          = map (fun k => (None, "-ethics_score"%string, 200%Z, (200 * Z.of_nat k)%Z))
                (seq 0 (S (length pages)))
       /\ list_results new = map Some pages ++ [Some []]
       /\ Forall (fun page => page <> []) pages.
Proof.
  intros lc sc uc se h o h'.
  split; [reflexivity|].
  exact (@rescoring_job_pages unit lc sc uc se 5%nat h h'
           [("rescored"%string, 2%Z)] eq_refl).
Defined.

(** X13.  An exception raised while a company is scored or updated never
    ends the job, provided it derives from [Exception].  If the job ends
    in such an exception, it is the [KeyError] of a row without ["id"], or
    it was raised by a listing, which is then the last call the job
    made. *)
Theorem rescoring_job_failures (W : Type)
    (lc : option string -> string -> Z -> Z -> IO W (list row))
    (sc : value -> IO W (Z * string))
    (uc : value -> Z -> string -> IO W row)
    (se : error -> string)
    (fuel : nat) (h h' : Host W) (e : error)
    (Hfailed : score_all lc sc uc se fuel h = Failed e h')
    (Hcatchable : is_Exception e = true) :
  e = KeyError "id"
  \/ exists earlier q order limit offset,
       calls h' = earlier ++ [ListCompanies q order limit offset None].
Proof.
  unfold score_all, io_bind in Hfailed.
  pose proof (score_all_loop_outcome lc sc uc se fuel 0 0 h) as Hloop.
  destruct (score_all_loop lc sc uc se fuel 0 0 h) as [t h1|e1 h1|];
    try discriminate.
  inversion Hfailed; subst.
  destruct Hloop as [Hk|[Hb|Hl]]; [left; exact Hk|congruence|right; exact Hl].
Qed.

Lemma rescoring_job_failures_witness :
  let lc := fun (q : option string) (order : string) (limit offset : Z) (w : nat) =>
    if (offset =? 0)%Z
    then Done [[("id", VStr "a")]]%string (S w)
    else Failed (Foreign "httpx.ConnectError" true) w in
  let sc := fun (company_id : value) (w : nat) =>
    Failed (RuntimeError "OpenAI API call failed") w in
  let uc := fun (company_id : value) (score : Z) (reason : string) (w : nat) =>
    Done [("id", company_id)]%string w in
  let se := fun _ : error => "error"%string in
  let h := {| world := 0%nat; stdout := []; calls := [] |} in
  let o := score_all lc sc uc se 3 h in
  let h' := match o with Failed _ s => s | _ => h end in
  o = Failed (Foreign "httpx.ConnectError" true) h'
  /\ (Foreign "httpx.ConnectError" true = KeyError "id"
      \/ exists earlier q order limit offset,
           calls h' = earlier ++ [ListCompanies q order limit offset None]).
Proof.
  intros lc sc uc se h o h'.
  split; [reflexivity|].
  exact (@rescoring_job_failures nat lc sc uc se 3%nat h h'
           (Foreign "httpx.ConnectError" true) eq_refl eq_refl).
Defined.

(** * Scoring a company *)

(** X14.  [score_company] asks the scoring provider only when it is ready
    to.  Without [OPENAI_API_KEY] (unset or empty) it raises [RuntimeError]
    at once, leaving everything as it was: nothing goes to the store
    either.  Otherwise it always ends, and either the provider was not
    touched, or the store returned a row for the company and exactly one
    chat request was made, for model [gpt-3.5-turbo], with [openai.api_key]
    set to the value of [OPENAI_API_KEY]. *)
Theorem scoring_asks_the_provider_only_when_ready
    (environ : string -> option string) (R Response : Type)
    (transport : Request -> R -> (error + Response) * R)
    (status_error : Response -> option error)
    (json_rows : Response -> error + list row)
    (P ChatResponse : Type)
    (chat_completion : option string -> ChatRequest -> P -> (error + ChatResponse) * P)
    (parse_reply : ChatResponse -> error + (Z * string))
    (str_error : error -> string) (str_response : ChatResponse -> string)
    (company_id : string) (s : Services R P) :
  let run := score_company environ transport status_error json_rows
               chat_completion parse_reply str_error str_response company_id s in
  (falsy (environ "OPENAI_API_KEY"%string) = true ->
   run = Failed (RuntimeError "OPENAI_API_KEY environment variable not set") s)
  /\ match final_state run with
     | None => False
     | Some s' =>
         (chats s' = chats s /\ provider s' = provider s)
         \/ exists company n' req,
              fetch_company environ transport status_error json_rows
                company_id (store s) = Done (Some company) n'
              /\ chats s' = chats s ++ [req]
              /\ model req = "gpt-3.5-turbo"%string
              /\ openai_api_key s' = environ "OPENAI_API_KEY"%string
     end.
Proof.
  cbv zeta. unfold score_company.
  destruct (falsy (environ "OPENAI_API_KEY"%string)) eqn:Hkey.
  - unfold io_raise. cbn [final_state].
    split; [reflexivity|]. left. split; reflexivity.
  - split; [discriminate|].
    unfold io_bind, set_openai_api_key, on_store.
    cbn [store provider openai_api_key chats].
    destruct (fetch_company environ transport status_error json_rows
                company_id (store s)) as [[company|] n'|e n'|] eqn:Hfetch.
    + unfold try_except, create_chat_completion.
      cbn [store provider openai_api_key chats].
      assert (Hright : forall s' : Services R P,
                chats s' = chats s ++
                  [{| model := "gpt-3.5-turbo";
                      messages :=
                        [[("role", "system"); ("content", system_prompt)];
                         [("role", "user");
                          ("content",
                           user_prompt (dict_get_or_none "name" company)
                             (dict_get_or_none "ticker" company)
                             (dict_get_or_none "ethics_score" company))]]%string;
                      max_tokens := 200; temperature := 0.2 |}] ->
                openai_api_key s' = environ "OPENAI_API_KEY"%string ->
                (chats s' = chats s /\ provider s' = provider s)
                \/ exists company0 n0 req,
                     Done (Some company) n' = Done (Some company0) n0
                     /\ chats s' = chats s ++ [req]
                     /\ model req = "gpt-3.5-turbo"%string
                     /\ openai_api_key s' = environ "OPENAI_API_KEY"%string).
      { intros s' Hc Hk. right. eexists. eexists. eexists.
        split; [reflexivity|]. split; [exact Hc|]. split; [reflexivity|exact Hk]. }
      match goal with
      | |- context [chat_completion ?k ?r ?p] =>
          destruct (chat_completion k r p) as [[e|response] p']
      end.
      * destruct (is_Exception e); unfold io_raise; cbn [final_state];
          apply Hright; reflexivity.
      * unfold read_reply.
        destruct (parse_reply response) as [e|reply];
          unfold io_raise, io_ret; [destruct (is_Exception e)|];
          cbn [final_state]; apply Hright; reflexivity.
    + unfold io_raise. cbn [final_state]. left. split; reflexivity.
    + cbn [final_state]. left. split; reflexivity.
    + exfalso. revert Hfetch.
      unfold fetch_company, io_bind, base_url_or_raise.
      destruct (environ "SUPABASE_URL"%string) as [u|]; [|discriminate].
      destruct (falsy (Some u)); [discriminate|]. unfold io_ret at 1.
      unfold _build_headers.
      destruct (environ "SUPABASE_KEY"%string) as [k|]; [|discriminate].
      destruct (falsy (Some k)); [discriminate|]. unfold io_ret at 1.
      unfold client_request.
      destruct (transport _ _) as [[e|resp] r']; [discriminate|].
      unfold raise_for_status, json.
      destruct (status_error resp); [discriminate|].
      unfold io_ret at 1.
      destruct (json_rows resp) as [e|[|first rest]]; discriminate.
Qed.

Lemma scoring_asks_the_provider_only_when_ready_witness :
  let environ := fun name : string =>
    if String.eqb name "SUPABASE_URL" then Some "https://db.example"%string
    else if String.eqb name "SUPABASE_KEY" then Some "s3cret"%string
    else None in
  let transport := fun (req : Request) (r : nat) => (inr 200%Z : error + Z, S r) in
  let chat := fun (key : option string) (req : ChatRequest) (p : nat) =>
    (inr "{}"%string : error + string, S p) in
  let s := {| store := {| remote := 0%nat; sent := [] |}; provider := 0%nat;
              openai_api_key := None; chats := [] |} in
  score_company environ transport (fun _ => None) (fun _ => inr [])
    chat (fun _ => inr (50%Z, "fair"%string)) (fun _ => "error"%string)
    (fun r => r) "c1" s
  = Failed (RuntimeError "OPENAI_API_KEY environment variable not set") s.
Proof.
  intros environ transport chat s.
  exact (proj1
    (@scoring_asks_the_provider_only_when_ready environ nat Z transport
       (fun _ => None) (fun _ => inr []) nat string chat
       (fun _ => inr (50%Z, "fair"%string)) (fun _ => "error"%string)
       (fun r => r) "c1"%string s) eq_refl).
Defined.

(** X15.  Whatever goes wrong at the scoring provider or in reading its
    reply comes out of [score_company] as a [RuntimeError], as long as it
    derives from [Exception].  An exception of another class that
    [score_company] ends in was raised by [fetch_company]. *)
Theorem scoring_failures_are_runtime_errors
    (environ : string -> option string) (R Response : Type)
    (transport : Request -> R -> (error + Response) * R)
    (status_error : Response -> option error)
    (json_rows : Response -> error + list row)
    (P ChatResponse : Type)
    (chat_completion : option string -> ChatRequest -> P -> (error + ChatResponse) * P)
    (parse_reply : ChatResponse -> error + (Z * string))
    (str_error : error -> string) (str_response : ChatResponse -> string)
    (company_id : string) (s s' : Services R P) (e : error)
    (Hfailed : score_company environ transport status_error json_rows
                 chat_completion parse_reply str_error str_response company_id s
               = Failed e s')
    (Hcatchable : is_Exception e = true) :
  (exists message, e = RuntimeError message)
  \/ (exists n', fetch_company environ transport status_error json_rows
                   company_id (store s) = Failed e n').
Proof.
  unfold score_company in Hfailed.
  destruct (falsy (environ "OPENAI_API_KEY"%string)).
  - unfold io_raise in Hfailed. inversion Hfailed. left. eexists. reflexivity.
  - unfold io_bind, set_openai_api_key, on_store in Hfailed.
    cbn [store provider openai_api_key chats] in Hfailed.
    destruct (fetch_company environ transport status_error json_rows
                company_id (store s)) as [[company|] n'|e0 n'|];
      try discriminate.
    + unfold try_except, create_chat_completion in Hfailed.
      cbn [store provider openai_api_key chats] in Hfailed.
      match type of Hfailed with
      | context [chat_completion ?k ?r ?p] =>
          destruct (chat_completion k r p) as [[e1|response] p']
      end.
      * destruct (is_Exception e1) eqn:He1; unfold io_raise in Hfailed;
          inversion Hfailed; subst; [left; eexists; reflexivity|congruence].
      * unfold read_reply in Hfailed.
        destruct (parse_reply response) as [e1|reply];
          unfold io_raise, io_ret in Hfailed; [|discriminate].
        destruct (is_Exception e1) eqn:He1;
          inversion Hfailed; subst; [left; eexists; reflexivity|congruence].
    + unfold io_raise in Hfailed. inversion Hfailed. left. eexists. reflexivity.
    + inversion Hfailed; subst. right. eexists. reflexivity.
Qed.

Lemma scoring_failures_are_runtime_errors_witness :
  let environ := fun name : string =>
    if String.eqb name "SUPABASE_URL" then Some "https://db.example"%string
    else if String.eqb name "SUPABASE_KEY" then Some "s3cret"%string
    else if String.eqb name "OPENAI_API_KEY" then Some "sk-test"%string
    else None in
  let transport := fun (req : Request) (r : nat) => (inr 200%Z : error + Z, S r) in
  let chat := fun (key : option string) (req : ChatRequest) (p : nat) =>
    (inl (Foreign "openai.error.RateLimitError" true) : error + string, S p) in
  let s := {| store := {| remote := 0%nat; sent := [] |}; provider := 0%nat;
              openai_api_key := None; chats := [] |} in
  let o := score_company environ transport (fun _ => None)
             (fun _ => inr [[("id", VStr "c1"); ("name", VStr "Acme")]]%string)
             chat (fun _ => inr (50%Z, "fair"%string)) (fun _ => "busy"%string)
             (fun r => r) "c1" s in
  let s' := match o with Failed _ st => st | _ => s end in
  o = Failed (RuntimeError "OpenAI API call failed: busy") s'
  /\ ((exists message, RuntimeError "OpenAI API call failed: busy" = RuntimeError message)
      \/ (exists n', fetch_company environ transport (fun _ => None)
                       (fun _ => inr [[("id", VStr "c1"); ("name", VStr "Acme")]]%string)
                       "c1" (store s)
                     = Failed (RuntimeError "OpenAI API call failed: busy") n')).
Proof.
  intros environ transport chat s o s'.
  split; [reflexivity|].
  exact (@scoring_failures_are_runtime_errors environ nat Z transport
           (fun _ => None)
           (fun _ => inr [[("id", VStr "c1"); ("name", VStr "Acme")]]%string)
           nat string chat (fun _ => inr (50%Z, "fair"%string))
           (fun _ => "busy"%string) (fun r => r) "c1"%string s s'
           (RuntimeError "OpenAI API call failed: busy") eq_refl eq_refl).
Defined.
